(** * veri-toplama-backend: the [/get-location] and [/resolve] handlers

    A shallow embedding of the two request handlers registered in [main]
    and of the static [cities] table, followed by the properties of the
    selection pipeline and of the resolution recorder.

    Conventions of the embedding

    - Go [int] values (entry ids, epochs, query parameters) are [Z]; the
      handlers only compare them, no arithmetic is performed on them.
    - Go [float64] is Rocq's primitive binary64 [float]; [>=] and [<=] are
      the IEEE comparisons.
    - Go [string] is [string]; [==] on strings is [String.eqb].
    - A slice is the list of its backing array together with its length
      where the code mutates the array while it is being ranged over (the
      removal of resolved entries); elsewhere it is a plain list.
    - A handler either sends a response or dies from a runtime panic (index
      or slice bounds out of range); [step] is the small monad that threads
      early [return]s and panics through the handler body.
    - The collaborators that live outside of the handlers (upstream source,
      cache, repositories, the random source, [fmt.Sprintf]) are fields of
      the [Collaborators] class. *)

From Stdlib Require Import ZArith List String Floats Bool Lia.
From stdpp Require Import base option list gmap strings.

Local Open Scope Z_scope.
#[local] Set Warnings "-inexact-float".

(** ** Data model *)

(** [locationsRepository.Location]: the fields the handlers read or write. *)
Record Location := mkLocation {
  EntryID : Z;
  Loc : list float;
  Epoch : Z;
  OriginalMessage : string;
  OriginalLocation : string
}.

(** The detail record returned by [tools.GetSingleLocation]. *)
Record SingleData := mkSingleData {
  FullText : string
}.

(** [ResolveBody], the JSON body of [POST /resolve]. *)
Record ResolveBody := mkResolveBody {
  rb_ID : Z;
  rb_LocationType : Z;
  rb_NewAddress : string;
  rb_OpenAddress : string;
  rb_Apartment : string;
  rb_Reason : string;
  rb_TweetContents : string
}.

(** [locationsRepository.LocationDB], the resolution record, as the literal
    in the [/resolve] handler builds it.  [db_ID] is the timestamp the
    object id is derived from. *)
Record LocationDB {User : Type} := mkLocationDB {
  db_ID : Z;
  db_EntryID : Z;
  db_Type : Z;
  db_Location : list float;
  db_Corrected : bool;
  db_OriginalAddress : string;
  db_CorrectedAddress : string;
  db_Reason : string;
  db_Sender : option User;
  db_OpenAddress : string;
  db_Apartment : string;
  db_TweetContents : string
}.
Arguments LocationDB : clear implicits.
Arguments mkLocationDB {User}.

(** What [c.JSON] and [c.SendString] put on the wire. *)
Inductive response :=
| JSON (Count : Z) (Location_ : option Location)
| SendString (body : string).

(** A Go [(value, error)] pair; the error is kept as its [Error()] text. *)
Inductive result (A : Type) :=
| Ok (a : A)
| Err (msg : string).
Arguments Ok {A} a.
Arguments Err {A} msg.

(** ** Control flow of a handler body *)

Inductive step (A : Type) :=
| Next (a : A)            (* fall through to the next statement *)
| Return (r : response)   (* [return c.JSON(..)] or [return c.SendString(..)] *)
| Panic.                  (* runtime panic *)
Arguments Next {A} a.
Arguments Return {A} r.
Arguments Panic {A}.

Definition bind {A B : Type} (m : step A) (k : A -> step B) : step B :=
  match m with
  | Next a => k a
  | Return r => Return r
  | Panic => Panic
  end.

Declare Scope step_scope.
Delimit Scope step_scope with step.
Notation "'let*' x ':=' m 'in' k" := (bind m (fun x => k))
  (at level 10, x name, m at level 100, k at level 200) : step_scope.
Local Open Scope step_scope.

(** [if err != nil { logrus.Errorln(err); return c.SendString(err.Error()) }] *)
Definition try {A : Type} (r : result A) : step A :=
  match r with
  | Ok a => Next a
  | Err msg => Return (SendString msg)
  end.

(** [s[i]] on a slice: out of range is a panic. *)
Definition index {A : Type} (s : list A) (i : nat) : step A :=
  match s !! i with
  | Some a => Next a
  | None => Panic
  end.

(** [a && b] with Go's left-to-right short circuit. *)
Definition and_then (a b : step bool) : step bool :=
  let* x := a in if x then b else Next false.
Infix "&&&" := and_then (at level 40, left associativity) : step_scope.

(** What the client of a handler observes. *)
Inductive outcome :=
| Responded (r : response)
| Panicked.

Definition finish (s : step response) : outcome :=
  match s with
  | Next r | Return r => Responded r
  | Panic => Panicked
  end.

(** ** The [cities] table *)

Definition cities : gmap Z (list float) :=
  list_to_map
    [ (1,  [36.852702785393014; 36.87286376953126; 36.535570922786015; 35.88409423828126]%float);
      (2,  [36.2104851748389; 36.81861877441407; 35.84286468375614; 35.82984924316407]%float);
      (3,  [36.495937096205274; 36.649870522206335; 36.064120488812605; 35.4740187605459]%float);
      (4,  [36.50903585150776; 36.402143998719424; 36.47976138594277; 36.31474829364722]%float);
      (5,  [36.64234742932176; 36.3232450328562; 36.53629731173617; 36.029282092441115]%float);
      (6,  [36.116001873480265; 36.06470054394251; 36.0627178139989; 35.91771907373497]%float);
      (7,  [38.53348725642158; 38.78062516773912; 37.32756763881127; 35.45481415037825]%float);
      (8,  [37.35461473302187; 38.0755896764663; 36.85431769725969; 36.67725839531126]%float);
      (9,  [39.065058845523424; 40.013647871307754; 37.86798402826048; 36.687836853946884]%float);
      (10, [38.160827052916495; 39.33362355320935; 37.44250898099215; 37.35608449070936]%float) ].

(** [cities[cityID]]: a missing key yields the zero value, the nil slice. *)
Definition cities_at (cityID : Z) : list float :=
  default [] (cities !! cityID).

(** ** Step 1: removal of the resolved entries

    [locations = append(locations[:i], locations[i+1:]...)] runs inside
    [for i, loc := range locations].  The [range] expression is evaluated
    once, so the inner loop visits the indices below the length the slice
    had when the pass started and reads the backing array as it is at that
    moment, while the assignment shifts the array in place and shortens the
    variable. *)

Record slice := mkSlice {
  arr : list Location;   (* backing array, from the slice's first element *)
  len : nat              (* len(locations) *)
}.

Definition of_list (l : list Location) : slice := mkSlice l (length l).
Definition to_list (s : slice) : list Location := take (len s) (arr s).

(** [append(locations[:i], locations[i+1:]...)].  [locations[i+1:]] panics
    when [i+1 > len(locations)]; the copy stays inside the array, so slots
    [i .. len-2] receive the old slots [i+1 .. len-1] and the rest of the
    array keeps its contents. *)
Definition remove_at (s : slice) (i : nat) : step slice :=
  if (i + 1 <=? len s)%nat then
    Next (mkSlice (take i (arr s)
                   ++ take (len s - (i + 1)) (drop (i + 1) (arr s))
                   ++ drop (len s - 1) (arr s))
                  (len s - 1))
  else Panic.

(** The inner [for i, loc := range locations], from index [i], with [todo]
    indices left. *)
Fixpoint remove_pass (id : Z) (i todo : nat) (s : slice) : step slice :=
  match todo with
  | O => Next s
  | S todo' =>
      let* loc := index (arr s) i in
      if id =? EntryID loc then
        let* s' := remove_at s i in
        remove_pass id (i + 1) todo' s'
      else remove_pass id (i + 1) todo' s
  end.

(** The outer [for _, l := range locs], over the entry ids of [locs]. *)
Fixpoint remove_resolved (ids : list Z) (s : slice) : step slice :=
  match ids with
  | [] => Next s
  | id :: ids' =>
      let* s' := remove_pass id 0 (len s) s in
      remove_resolved ids' s'
  end.

(** ** Step 2: the geographic filter *)

(** [x >= y] and [x <= y] on [float64]. *)
Definition ge (x y : float) : bool := PrimFloat.leb y x.
Definition le (x y : float) : bool := PrimFloat.leb x y.

(** [box[0] >= loc.Loc[0] && box[1] >= loc.Loc[1] &&
     box[2] <= loc.Loc[0] && box[3] <= loc.Loc[1]] *)
Definition in_box (box : list float) (loc : Location) : step bool :=
  (let* b := index box 0 in let* c := index (Loc loc) 0 in Next (ge b c))
  &&& (let* b := index box 1 in let* c := index (Loc loc) 1 in Next (ge b c))
  &&& (let* b := index box 2 in let* c := index (Loc loc) 0 in Next (le b c))
  &&& (let* b := index box 3 in let* c := index (Loc loc) 1 in Next (le b c)).

Fixpoint geo_loop (box : list float) (locations filteredLocations : list Location)
  : step (list Location) :=
  match locations with
  | [] => Next filteredLocations
  | loc :: rest =>
      let* keep := in_box box loc in
      geo_loop box rest
        (if keep then filteredLocations ++ [loc] else filteredLocations)
  end.

Definition geo_filter (cityID : Z) (locations : list Location)
  : step (list Location) :=
  if cityID >? 0 then geo_loop (cities_at cityID) locations []
  else Next locations.

(** ** Step 3: the time filter *)

Fixpoint time_loop (startingAt : Z) (locations filteredLocations : list Location)
  : list Location :=
  match locations with
  | [] => filteredLocations
  | loc :: rest =>
      time_loop startingAt rest
        (if Epoch loc >=? startingAt then filteredLocations ++ [loc]
         else filteredLocations)
  end.

Definition time_filter (startingAt : Z) (locations : list Location)
  : list Location :=
  if startingAt >? 0 then time_loop startingAt locations [] else locations.

(** ** Predicates of the statements *)

(** The candidates that survive a pass for [id]. *)
Definition other_id (id : Z) (c : Location) : bool := negb (id =? EntryID c).

(** The candidates whose entry id is not among [ids]. *)
Definition unresolved (ids : list Z) (c : Location) : bool :=
  negb (existsb (Z.eqb (EntryID c)) ids).

(** The candidates the filter keeps for [box]. *)
Definition kept_by (box : list float) (c : Location) : bool :=
  match in_box box c with
  | Next true => true
  | _ => false
  end.

(** ** Collaborators

    The packages the handlers call into: [tools] (upstream source behind
    the cache), [locationsRepository], [usersRepository] and [fmt].  The
    reads are functions of the world; [ResolveLocation] is the one write
    and returns the world it leaves behind together with its [error]
    ([None] for [nil]).  [Sprintf_f] is the [%f] verb of [fmt.Sprintf]. *)
Class Collaborators (World User : Type) := {
  GetAllLocations : World -> result (list Location);
  GetSingleLocation : World -> Z -> result SingleData;
  GetLocations : World -> result (list (LocationDB User));
  IsDuplicate : World -> string -> result bool;
  IsResolved : World -> Z -> result bool;
  GetUser : World -> string -> result User;
  ResolveLocation : World -> LocationDB User -> option string * World;
  Sprintf_f : float -> string
}.

(** The global [math/rand] source: the sequence of its draws and the number
    of draws consumed so far. *)
Record rng := mkRng {
  draws : nat -> nat;
  pos : nat
}.

(** [rand.Intn(n)]: panics for [n <= 0], otherwise a value in [[0, n)]. *)
Definition Intn (g : rng) (n : nat) : step (nat * rng) :=
  match n with
  | O => Panic
  | S _ => Next ((draws g (pos g) mod n)%nat, mkRng (draws g) (S (pos g)))
  end.

(** What the selection loop leaves behind: how it ended, the final
    [processed] slice and the random source. *)
Record selection := mkSelection {
  sel_end : step (Location * string);
  sel_processed : list nat;
  sel_rng : rng
}.

Section Handlers.
Context {World User : Type} `{!Collaborators World User}.

(** [fmt.Sprintf("https://www.google.com/maps/?q=%f,%f&ll=%f,%f&z=21",
     a, b, a, b)] *)
Definition maps_url (a b : float) : string :=
  ("https://www.google.com/maps/?q=" ++ Sprintf_f a ++ "," ++ Sprintf_f b
   ++ "&ll=" ++ Sprintf_f a ++ "," ++ Sprintf_f b ++ "&z=21")%string.

(** *** [GET /get-location] *)

(** Everything up to the emptiness test: the candidate list after the
    removal of the resolved entries, the geographic and the time filter. *)
Definition filtered_pool (w : World) (cityID startingAt : Z)
  : step (list Location) :=
  let* locations := try (GetAllLocations w) in
  let* locs := try (GetLocations w) in
  let* s := remove_resolved (map db_EntryID locs) (of_list locations) in
  let* locations := geo_filter cityID (to_list s) in
  Next (time_filter startingAt locations).

(** [for _, i := range processed { if randIndex == i { continue } }]:
    the [continue] belongs to this inner loop, which has no other
    statement. *)
Fixpoint skip_visited (randIndex : nat) (processed : list nat) : unit :=
  match processed with
  | [] => tt
  | i :: rest =>
      if (randIndex =? i)%nat then skip_visited randIndex rest
      else skip_visited randIndex rest
  end.

(** One round of fetching and duplicate checking for [locations[randIndex]]. *)
Definition examine (w : World) (locations : list Location) (randIndex : nat)
  : step (Location * SingleData * bool) :=
  let* s := index locations randIndex in
  let* singleData := try (GetSingleLocation w (EntryID s)) in
  let* exists_ := try (IsDuplicate w (FullText singleData)) in
  Next (s, singleData, exists_).

(** The selection loop [for { ... }]; [fuel] bounds the number of
    iterations that are unfolded, [None] means the bound was reached. *)
Fixpoint select_loop (fuel : nat) (w : World) (locations : list Location)
    (processed : list nat) (g : rng) : option selection :=
  match fuel with
  | O => None
  | S fuel' =>
      match Intn g (length locations) with
      | Next (randIndex, g') =>
          if (length processed =? length locations)%nat then
            Some (mkSelection (Return (JSON 0 None)) processed g')
          else
            match skip_visited randIndex processed with
            | tt =>
                let processed := processed ++ [randIndex] in
                match examine w locations randIndex with
                | Next (s, singleData, exists_) =>
                    if negb exists_ then
                      Some (mkSelection (Next (s, FullText singleData)) processed g')
                    else select_loop fuel' w locations processed g'
                | Return r => Some (mkSelection (Return r) processed g')
                | Panic => Some (mkSelection Panic processed g')
                end
            end
      | Return r => Some (mkSelection (Return r) processed g)
      | Panic => Some (mkSelection Panic processed g)
      end
  end.

(** The statements after the loop. *)
Definition enrich (locations : list Location) (selected : Location)
    (fullText : string) : step response :=
  let* a := index (Loc selected) 0 in
  let* b := index (Loc selected) 1 in
  let* a' := index (Loc selected) 0 in
  let* b' := index (Loc selected) 1 in
  Next (JSON (Z.of_nat (length locations))
             (Some (mkLocation (EntryID selected) (Loc selected) (Epoch selected)
                               fullText (maps_url a b)))).

Definition get_location (fuel : nat) (w : World) (g : rng)
    (cityID startingAt : Z) : option outcome :=
  match filtered_pool w cityID startingAt with
  | Next locations =>
      if (length locations =? 0)%nat then Some (Responded (JSON 0 None))
      else
        match select_loop fuel w locations [] g with
        | Some sel =>
            Some (finish (let* chosen := sel_end sel in
                          enrich locations (fst chosen) (snd chosen)))
        | None => None
        end
  | Return r => Some (Responded r)
  | Panic => Some Panicked
  end.

(** *** [POST /resolve] *)

(** The loop that looks the entry up in the candidate list. *)
Fixpoint find_original (id : Z) (locations : list Location)
    (originalLocation : string) (location : list float)
  : step (string * list float) :=
  match locations with
  | [] => Next (originalLocation, location)
  | loc :: rest =>
      if EntryID loc =? id then
        let* a := index (Loc loc) 0 in
        let* b := index (Loc loc) 1 in
        find_original id rest (maps_url a b) (Loc loc)
      else find_original id rest originalLocation location
  end.

(** The handler up to the call of [ResolveLocation]: the record that is
    handed to the repository.  [parsed] is what [json.Unmarshal] made of
    the body, [authKey] the [Auth-Key] header and [now] the clock. *)
Definition resolve_record (w : World) (parsed : result ResolveBody)
    (authKey : string) (now : Z) : step (LocationDB User) :=
  let* body := try parsed in
  let* exists_ := try (IsResolved w (rb_ID body)) in
  if exists_ : bool then Return (SendString "this location is already checked"%string)
  else
    let* locations := try (GetAllLocations w) in
    let* found := find_original (rb_ID body) locations ""%string [] in
    let sender := match GetUser w authKey with
                  | Ok userData => Some userData
                  | Err _ => None
                  end in
    Next (mkLocationDB now (rb_ID body) (rb_LocationType body) (snd found)
            (String.eqb (rb_Reason body) "Hata Yok"%string) (fst found)
            (rb_NewAddress body) (rb_Reason body) sender
            (rb_OpenAddress body) (rb_Apartment body) (rb_TweetContents body)).

Definition resolve (w : World) (parsed : result ResolveBody)
    (authKey : string) (now : Z) : outcome * World :=
  match resolve_record w parsed authKey now with
  | Next record =>
      match ResolveLocation w record with
      | (Some msg, w') => (Responded (SendString msg), w')
      | (None, w') => (Responded (SendString "Successfully added!"%string), w')
      end
  | Return r => (Responded r, w)
  | Panic => (Panicked, w)
  end.

(** Every candidate of the pool can be fetched and its full text is
    reported as a duplicate. *)
Definition all_duplicates (w : World) (pool : list Location) : Prop :=
  forall loc, In loc pool ->
    exists sd, GetSingleLocation w (EntryID loc) = Ok sd /\
               IsDuplicate w (FullText sd) = Ok true.

End Handlers.

(** ** The guard of the [/admin] group

    [usersRepository.User] carries a permission level that the guard
    compares with the constant [usersRepository.PermModerator]. *)
Class Permissions (User : Type) := {
  PermLevel : User -> Z;
  PermModerator : Z
}.

(** What the guard does with a request: answer it with a status and a
    plain text, or hand it to the routes of the group ([c.Next()]). *)
Inductive guard :=
| Reject (status : Z) (body : string)
| PassOn.

Section AdminGuard.
Context {World User : Type} `{!Collaborators World User} `{!Permissions User}.

(** The handler given to [app.Group("/admin", ...)]; [authKey] is the
    [Auth-Key] header. *)
Definition admin_guard (w : World) (authKey : string) : guard :=
  match GetUser w authKey with
  | Err _ => Reject 401 "User not found."%string
  | Ok user =>
      if PermLevel user <? PermModerator then
        Reject 401 "You are not allowed to access here."%string
      else PassOn
  end.

End AdminGuard.

(** ** Notions used in the statements about the selection loop *)

(** The index that the [j]-th call of [rand.Intn(n)] from [g] on returns. *)
Definition draw (g : rng) (n j : nat) : nat :=
  (draws g (pos g + j) mod n)%nat.

(** The random source after [k] draws. *)
Definition advance (g : rng) (k : nat) : rng :=
  mkRng (draws g) (pos g + k).

(** A candidate that carries both coordinates. *)
Definition has_coordinates (c : Location) : Prop :=
  exists x y rest, Loc c = x :: y :: rest.

Section DrawnCandidates.
Context {World User : Type} `{!Collaborators World User}.

(** The first [k] draws hit candidates that are fetched and found to be
    duplicates. *)
Definition duplicates_drawn (w : World) (pool : list Location) (g : rng)
    (k : nat) : Prop :=
  forall j, (j < k)%nat ->
    exists s sd, examine w pool (draw g (length pool) j) = Next (s, sd, true).

End DrawnCandidates.

(** ** An in-memory double of the collaborators

    Used to run the handlers on concrete requests: the upstream candidate
    list, the full text of every entry and the stored resolution records
    are plain data, users are identified by their key, and a full text is
    a duplicate when a stored record carries it as its tweet contents. *)
Module Double.

Record world := mkWorld {
  upstream : list Location;
  full_text : Z -> string;
  known_keys : list string;
  stored : list (LocationDB string)
}.

Definition is_duplicate (w : world) (text : string) : bool :=
  existsb (fun r => String.eqb (db_TweetContents r) text) (stored w).

Definition is_resolved (w : world) (id : Z) : bool :=
  existsb (fun r => db_EntryID r =? id) (stored w).

Definition get_user (w : world) (key : string) : result string :=
  if existsb (String.eqb key) (known_keys w) then Ok key
  else Err "user not found"%string.

Definition resolve_location (w : world) (r : LocationDB string)
  : option string * world :=
  (None, mkWorld (upstream w) (full_text w) (known_keys w) (stored w ++ [r])).

#[export] Instance collaborators : Collaborators world string := {
  GetAllLocations w := Ok (upstream w);
  GetSingleLocation w id := Ok (mkSingleData (full_text w id));
  GetLocations w := Ok (stored w);
  IsDuplicate w text := Ok (is_duplicate w text);
  IsResolved w id := Ok (is_resolved w id);
  GetUser := get_user;
  ResolveLocation := resolve_location;
  Sprintf_f := fun _ => "%f"%string
}.

(** A candidate with the given id, coordinates and epoch. *)
Definition candidate (id : Z) (lat lon : float) (epoch : Z) : Location :=
  mkLocation id [lat; lon] epoch ""%string ""%string.

(** A stored record for entry [id] whose tweet contents are [text]. *)
Definition record (id : Z) (text : string) : LocationDB string :=
  mkLocationDB 0 id 0 [] true ""%string ""%string "Hata Yok"%string None
               ""%string ""%string text.

(** A random source that always draws [k]. *)
Definition constant_rng (k : nat) : rng := mkRng (fun _ => k) 0.

(** A random source that draws [0, 1, 2, ...]. *)
Definition counting_rng : rng := mkRng (fun i => i) 0.

(** The pool of the scenarios: entry 1 at (36, 36) with epoch 100 and
    entry 2 at (0, 0) with epoch 200. *)
Definition pool : list Location :=
  [candidate 1 36 36 100; candidate 2 0 0 200].

(** Every full text is already stored. *)
Definition seen : world :=
  mkWorld pool (fun _ => "seen"%string) ["key"%string] [record 9 "seen"].

(** No full text is stored; entry 9 is resolved. *)
Definition fresh : world :=
  mkWorld pool (fun _ => "fresh"%string) ["key"%string] [record 9 "seen"].

(** Nothing upstream. *)
Definition nothing : world :=
  mkWorld [] (fun _ => ""%string) [] [].

(** The upstream list carries entry 1 twice, with epochs 100 and 101;
    entry 1 is resolved. *)
Definition repeated : world :=
  mkWorld [candidate 1 36 36 100; candidate 1 36 36 101; candidate 2 0 0 200]
          (fun _ => "fresh"%string) [] [record 1 "seen"].

Definition body (id : Z) (reason : string) : ResolveBody :=
  mkResolveBody id 2 "new"%string "open"%string "apt"%string reason
                "tweet"%string.

(** Users are their keys; the key "mod" is a moderator. *)
#[export] Instance permissions : Permissions string := {
  PermLevel user := if String.eqb user "mod" then 2 else 0;
  PermModerator := 1
}.

(** Entry 1 is stored already, entry 2 is not; among the users only "mod"
    is a moderator. *)
Definition mixed : world :=
  mkWorld pool (fun id => if id =? 1 then "seen"%string else "fresh"%string)
          ["key"%string; "mod"%string] [record 9 "seen"].

(** Upstream entry 3 has lost its coordinates. *)
Definition ragged : world :=
  mkWorld [candidate 1 36 36 100; mkLocation 3 [] 300 ""%string ""%string]
          (fun _ => "fresh"%string) [] [].

End Double.

(** * Properties *)

(** ** Generic facts about [step] *)

Lemma bind_Next_inv {A B : Type} (m : step A) (k : A -> step B) (b : B) :
  bind m k = Next b -> exists a, m = Next a /\ k a = Next b.
Proof. destruct m as [a| |]; simpl; intros E; try discriminate; eauto. Qed.

Lemma try_Next_inv {A : Type} (r : result A) (a : A) :
  try r = Next a -> r = Ok a.
Proof. destruct r; simpl; congruence. Qed.

Lemma index_Next_inv {A : Type} (s : list A) (i : nat) (a : A) :
  index s i = Next a -> s !! i = Some a.
Proof. unfold index. destruct (s !! i); congruence. Qed.

Lemma index_lookup {A : Type} (s : list A) (i : nat) (a : A) :
  s !! i = Some a -> index s i = Next a.
Proof. unfold index. intros ->. reflexivity. Qed.

(** ** The removal of the resolved entries *)

(** A pass that meets no matching entry leaves the slice as it is. *)
Lemma remove_pass_no_match (id : Z) (todo : nat) :
  forall (i : nat) (s : slice),
    (forall j, (i <= j < i + todo)%nat ->
               exists c, arr s !! j = Some c /\ EntryID c <> id) ->
    remove_pass id i todo s = Next s.
Proof.
  induction todo as [|todo IH]; intros i s Hno; simpl; [reflexivity|].
  destruct (Hno i) as (c & Hc & Hid); [lia|].
  rewrite (index_lookup _ _ _ Hc). simpl.
  destruct (Z.eqb_spec id (EntryID c)) as [E|_]; [congruence|].
  apply IH. intros j Hj. apply Hno. lia.
Qed.

(** The slot that [append] leaves untouched behind the shortened slice
    holds a copy of the last live element. *)
Lemma drop_length_cons {A : Type} (l tail : list A) :
  forall x, exists y, drop (length l) (x :: l ++ tail) = y :: tail /\
                      (l <> [] -> In y l).
Proof.
  induction l as [|a l IH]; intros x; simpl.
  - exists x. split; [reflexivity|congruence].
  - destruct (IH a) as (y & Hy & Hin). exists y. split; [exact Hy|].
    intros _. destruct l as [|b l]; [|right; apply Hin; discriminate].
    simpl in Hy. injection Hy as <-. now left.
Qed.

Lemma filter_other_id_all (id : Z) (l : list Location) :
  (forall c, In c l -> EntryID c <> id) -> List.filter (other_id id) l = l.
Proof.
  induction l as [|c l IH]; intros Hall; simpl; [reflexivity|].
  unfold other_id at 1.
  destruct (Z.eqb_spec id (EntryID c)) as [E|_]; simpl.
  - exfalso. apply (Hall c); [now left|congruence].
  - f_equal. apply IH. intros d Hd. apply Hall. now right.
Qed.

(** One pass over a slice whose not yet visited part [rest] has pairwise
    distinct entry ids: the part [pre] that was visited stays, [rest] loses
    the entry with the id [id]. *)
Lemma remove_pass_distinct (id : Z) (rest : list Location) :
  forall (pre tail : list Location) (s : slice),
    arr s = (pre ++ rest ++ tail)%list ->
    len s = (length pre + length rest)%nat ->
    NoDup (map EntryID rest) ->
    exists s',
      remove_pass id (length pre) (length rest) s = Next s' /\
      to_list s' = (pre ++ List.filter (other_id id) rest)%list /\
      (len s' <= length (arr s'))%nat.
Proof.
  induction rest as [|c post IH]; intros pre tail s Harr Hlen Hnd; simpl.
  - exists s. unfold to_list. rewrite Harr, Hlen. simpl.
    rewrite Nat.add_0_r, take_app_length, app_nil_r, length_app.
    split; [reflexivity|]. split; [reflexivity|lia].
  - assert (Hc : arr s !! length pre = Some c).
    { rewrite Harr. now rewrite lookup_app_r, Nat.sub_diag by lia. }
    rewrite (index_lookup _ _ _ Hc). simpl.
    apply NoDup_cons in Hnd as [Hfresh Hnd].
    unfold other_id at 1.
    destruct (Z.eqb_spec id (EntryID c)) as [E|NE]; simpl.
    + (* the entry is removed; nothing behind it matches *)
      assert (Hpost : forall d, In d post -> EntryID d <> id).
      { intros d Hd Heq. apply Hfresh.
        replace (EntryID c) with (EntryID d) by congruence.
        apply list_elem_of_In, in_map, Hd. }
      unfold remove_at. simpl in Hlen.
      destruct (Nat.leb_spec (length pre + 1) (len s)) as [_|Hlt]; [|lia].
      simpl.
      destruct (drop_length_cons post tail c) as (y & Hy & Hin).
      assert (Harr' : (take (length pre) (arr s)
                       ++ take (len s - (length pre + 1))
                               (drop (length pre + 1) (arr s))
                       ++ drop (len s - 1) (arr s))%list
                      = (pre ++ post ++ y :: tail)%list).
      { rewrite Harr, Hlen. f_equal; [apply take_app_length|]. f_equal.
        - replace (pre ++ (c :: post) ++ tail)%list
            with ((pre ++ [c]) ++ post ++ tail)%list
            by (rewrite <- app_assoc; reflexivity).
          rewrite drop_app_length' by (rewrite length_app; simpl; lia).
          apply take_app_length'. lia.
        - replace (length pre + S (length post) - 1)%nat
            with (length pre + length post)%nat by lia.
          rewrite drop_app_add. exact Hy. }
      rewrite Harr'.
      eexists. split.
      * apply remove_pass_no_match. simpl. intros j Hj.
        rewrite lookup_app_r by lia.
        destruct (decide (j - length pre < length post)%nat) as [Hin'|Hout].
        -- destruct (lookup_lt_is_Some_2 post (j - length pre) Hin') as [d Hd].
           exists d. rewrite (lookup_app_l_Some _ _ _ _ Hd).
           split; [reflexivity|].
           apply Hpost, list_elem_of_In. eapply list_elem_of_lookup_2, Hd.
        -- exists y. rewrite lookup_app_r by lia.
           replace (j - length pre - length post)%nat with O by lia.
           split; [reflexivity|].
           apply Hpost, Hin. intros ->. simpl in Hj. lia.
      * unfold to_list. simpl.
        rewrite (filter_other_id_all id post Hpost).
        replace (len s - 1)%nat with (length (pre ++ post)) by
          (rewrite length_app; lia).
        rewrite app_assoc, take_app_length, !length_app. simpl.
        split; [reflexivity|lia].
    + (* the entry stays *)
      destruct (IH (pre ++ [c])%list tail s) as (s' & Hs' & Hl & Hb).
      { rewrite Harr, <- app_assoc. reflexivity. }
      { rewrite length_app. simpl in *. lia. }
      { exact Hnd. }
      rewrite length_app in Hs'. simpl in Hs'.
      exists s'. split; [exact Hs'|]. split; [|exact Hb].
      rewrite Hl, <- app_assoc. reflexivity.
Qed.

Lemma NoDup_map_filter (f : Location -> bool) (l : list Location) :
  NoDup (map EntryID l) -> NoDup (map EntryID (List.filter f l)).
Proof.
  induction l as [|c l IH]; simpl; intros Hnd; [exact Hnd|].
  apply NoDup_cons in Hnd as [Hfresh Hnd].
  destruct (f c); simpl; [|auto].
  apply NoDup_cons. split; [|auto].
  intros Hin. apply Hfresh.
  apply list_elem_of_In, in_map_iff in Hin as (d & Hd & Hin).
  apply filter_In in Hin as [Hin _].
  rewrite <- Hd. apply list_elem_of_In, in_map, Hin.
Qed.

Lemma filter_unresolved_cons (id : Z) (ids : list Z) (l : list Location) :
  List.filter (unresolved ids) (List.filter (other_id id) l)
  = List.filter (unresolved (id :: ids)) l.
Proof.
  induction l as [|c l IH]; simpl; [reflexivity|].
  unfold other_id at 1, unresolved at 2. simpl.
  rewrite (Z.eqb_sym (EntryID c) id).
  destruct (id =? EntryID c); simpl; [exact IH|].
  fold (unresolved ids c). destruct (unresolved ids c); simpl; now rewrite IH.
Qed.

Lemma remove_resolved_filter (ids : list Z) :
  forall s : slice,
    (len s <= length (arr s))%nat ->
    NoDup (map EntryID (to_list s)) ->
    exists s',
      remove_resolved ids s = Next s' /\
      to_list s' = List.filter (unresolved ids) (to_list s).
Proof.
  induction ids as [|id ids IH]; intros s Hb Hnd; simpl.
  - exists s. split; [reflexivity|].
    symmetry. apply forallb_filter_id, forallb_forall. reflexivity.
  - destruct (remove_pass_distinct id (to_list s) [] (drop (len s) (arr s)) s)
      as (s1 & Hpass & Hl & Hb1).
    { unfold to_list. simpl. now rewrite take_drop. }
    { unfold to_list. simpl. rewrite length_take_le; lia. }
    { exact Hnd. }
    simpl in Hpass, Hl.
    replace (length (to_list s)) with (len s) in Hpass
      by (unfold to_list; rewrite length_take_le; lia).
    rewrite Hpass. simpl.
    destruct (IH s1 Hb1) as (s' & Hs' & Hl').
    { rewrite Hl. apply NoDup_map_filter, Hnd. }
    exists s'. split; [exact Hs'|].
    rewrite Hl', Hl. apply filter_unresolved_cons.
Qed.

(** X14.  On a candidate list with pairwise distinct entry ids the removal
    does not panic and keeps, in order, exactly the candidates whose entry
    id is not among the resolved ones. *)
Theorem remove_resolved_distinct_ids (ids : list Z) (l : list Location) :
  NoDup (map EntryID l) ->
  exists s,
    remove_resolved ids (of_list l) = Next s /\
    to_list s = List.filter (unresolved ids) l /\
    (forall c, In c (to_list s) -> ~ In (EntryID c) ids).
Proof.
  intros Hnd.
  assert (Hl : to_list (of_list l) = l) by apply firstn_all.
  destruct (remove_resolved_filter ids (of_list l)) as (s & Hs & Hf).
  { reflexivity. }
  { now rewrite Hl. }
  rewrite Hl in Hf. exists s. split; [exact Hs|]. split; [exact Hf|].
  intros c Hc Hin. rewrite Hf in Hc. apply filter_In in Hc as [_ Hc].
  unfold unresolved in Hc. apply negb_true_iff in Hc.
  assert (existsb (Z.eqb (EntryID c)) ids = true); [|congruence].
  apply existsb_exists. exists (EntryID c). split; [exact Hin|apply Z.eqb_refl].
Qed.

(** ** The time filter *)

Lemma time_loop_filter (T : Z) (locations acc : list Location) :
  time_loop T locations acc
  = (acc ++ List.filter (fun c => Epoch c >=? T) locations)%list.
Proof.
  revert acc. induction locations as [|loc rest IH]; intros acc; simpl.
  - now rewrite app_nil_r.
  - rewrite IH. destruct (Epoch loc >=? T); [|reflexivity].
    now rewrite <- app_assoc.
Qed.

(** C6.  The time filter with [startingAt = 0] leaves the pool unchanged;
    with [startingAt = T > 0] it keeps, in order, exactly the candidates
    whose epoch is at least [T], so a candidate is in the result iff it was
    in the pool with [T <= Epoch], and none with [Epoch < T] survives. *)
Theorem time_filter_spec (pool : list Location) :
  time_filter 0 pool = pool /\
  forall T, 0 < T ->
    time_filter T pool = List.filter (fun c => Epoch c >=? T) pool /\
    (forall c, In c (time_filter T pool) <-> In c pool /\ T <= Epoch c) /\
    (forall c, In c pool -> Epoch c < T -> ~ In c (time_filter T pool)).
Proof.
  split; [reflexivity|].
  intros T HT.
  assert (E : time_filter T pool = List.filter (fun c => Epoch c >=? T) pool).
  { unfold time_filter. destruct (Z.gtb_spec T 0) as [_|Hle]; [|lia].
    now rewrite time_loop_filter. }
  assert (M : forall c, In c (time_filter T pool) <-> In c pool /\ T <= Epoch c).
  { intros c. rewrite E, filter_In, Z.geb_le. reflexivity. }
  split; [exact E|]. split; [exact M|].
  intros c _ Hlt Hin. apply M in Hin. lia.
Qed.

Lemma time_filter_spec_witness :
  0 < 150 /\
  time_filter 150 [Double.candidate 1 36 36 100; Double.candidate 2 0 0 200]
  = [Double.candidate 2 0 0 200].
Proof.
  split; [reflexivity|].
  exact (proj1 (proj2 (time_filter_spec
                         [Double.candidate 1 36 36 100; Double.candidate 2 0 0 200])
                      150 eq_refl)).
Defined.

Section HandlerFacts.
Context {World User : Type} `{!Collaborators World User}.

(** ** The empty pool *)

(** C7.  When the pool that comes out of the filters is empty, the
    handler answers [{count: 0, location: null}] as a JSON response (not
    an error string, not a panic), before the selection loop is entered
    and therefore whatever the iteration bound. *)
Theorem empty_pool_empty_result (fuel : nat) (w : World) (g : rng)
    (cityID startingAt : Z) :
  filtered_pool w cityID startingAt = Next [] ->
  get_location fuel w g cityID startingAt = Some (Responded (JSON 0 None)).
Proof. unfold get_location. intros ->. reflexivity. Qed.

(** ** The resolution recorder *)

Lemma resolve_record_inv (w : World) (parsed : result ResolveBody)
    (authKey : string) (now : Z) (record : LocationDB User) :
  resolve_record w parsed authKey now = Next record ->
  exists body locations found,
    parsed = Ok body /\
    IsResolved w (rb_ID body) = Ok false /\
    GetAllLocations w = Ok locations /\
    find_original (rb_ID body) locations ""%string [] = Next found /\
    record = mkLocationDB now (rb_ID body) (rb_LocationType body) (snd found)
               (String.eqb (rb_Reason body) "Hata Yok"%string) (fst found)
               (rb_NewAddress body) (rb_Reason body)
               (match GetUser w authKey with
                | Ok userData => Some userData
                | Err _ => None
                end)
               (rb_OpenAddress body) (rb_Apartment body) (rb_TweetContents body).
Proof.
  unfold resolve_record. intros E.
  apply bind_Next_inv in E as (body & Hp & E). apply try_Next_inv in Hp.
  apply bind_Next_inv in E as (ex & Hr & E). apply try_Next_inv in Hr.
  destruct ex; [discriminate|].
  apply bind_Next_inv in E as (locations & Hl & E). apply try_Next_inv in Hl.
  apply bind_Next_inv in E as (found & Hf & E).
  exists body, locations, found. repeat split; try assumption. congruence.
Qed.

(** C8.  The handler consults [IsResolved] on the body's id before any
    other collaborator.  If the entry is already resolved it answers the
    plain text "this location is already checked" and the world is the
    one it started from: [ResolveLocation] is not called, nothing is
    written or overwritten.  A record reaches [ResolveLocation] only when
    [IsResolved] answered [false], and when that write reports no error
    the answer is the plain text "Successfully added!". *)
Theorem resolve_checks_before_writing (w : World) (body : ResolveBody)
    (authKey : string) (now : Z) :
  (IsResolved w (rb_ID body) = Ok true ->
     resolve_record w (Ok body) authKey now
       = Return (SendString "this location is already checked"%string) /\
     resolve w (Ok body) authKey now
       = (Responded (SendString "this location is already checked"%string), w)) /\
  (forall msg, IsResolved w (rb_ID body) = Err msg ->
     resolve w (Ok body) authKey now = (Responded (SendString msg), w)) /\
  (forall record w',
     resolve_record w (Ok body) authKey now = Next record ->
     ResolveLocation w record = (None, w') ->
     IsResolved w (rb_ID body) = Ok false /\
     db_EntryID record = rb_ID body /\
     resolve w (Ok body) authKey now
       = (Responded (SendString "Successfully added!"%string), w')).
Proof.
  split; [|split].
  - intros E. unfold resolve, resolve_record. simpl. rewrite E. simpl. auto.
  - intros msg E. unfold resolve, resolve_record. simpl. rewrite E. reflexivity.
  - intros record w' E Hw.
    destruct (resolve_record_inv _ _ _ _ _ E)
      as (body' & locations & found & Hb & Hr & _ & _ & ->).
    injection Hb as <-.
    split; [exact Hr|]. split; [reflexivity|].
    unfold resolve. rewrite E, Hw. reflexivity.
Qed.

(** C10.  Whenever the handler hands a record to [ResolveLocation], its
    [Corrected] flag is [true] exactly when the request's reason is the
    string "Hata Yok". *)
Theorem corrected_iff_reason_hata_yok (w : World) (parsed : result ResolveBody)
    (authKey : string) (now : Z) (record : LocationDB User) :
  resolve_record w parsed authKey now = Next record ->
  exists body,
    parsed = Ok body /\
    db_Reason record = rb_Reason body /\
    (db_Corrected record = true <-> rb_Reason body = "Hata Yok"%string).
Proof.
  intros E.
  destruct (resolve_record_inv _ _ _ _ _ E)
    as (body & locations & found & Hb & _ & _ & _ & ->).
  exists body. split; [exact Hb|]. split; [reflexivity|].
  simpl. apply String.eqb_eq.
Qed.

End HandlerFacts.

(** ** The selection loop *)

Lemma Intn_spec (g : rng) (n : nat) :
  n <> O ->
  exists k, Intn g n = Next (k, mkRng (draws g) (S (pos g))) /\ (k < n)%nat.
Proof.
  intros Hn. destruct n as [|n']; [congruence|].
  exists (draws g (pos g) mod S n')%nat. split; [reflexivity|].
  apply Nat.mod_upper_bound. discriminate.
Qed.

Section SelectionFacts.
Context {World User : Type} `{!Collaborators World User}.

Lemma examine_duplicate (w : World) (pool : list Location) (i : nat) :
  all_duplicates w pool -> (i < length pool)%nat ->
  exists s sd, examine w pool i = Next (s, sd, true).
Proof.
  intros Hdup Hi.
  destruct (lookup_lt_is_Some_2 pool i Hi) as [s Hs].
  destruct (Hdup s) as (sd & Hf & Hd).
  { apply list_elem_of_In. eapply list_elem_of_lookup_2; eassumption. }
  exists s, sd. unfold examine.
  rewrite (index_lookup _ _ _ Hs). simpl. rewrite Hf. simpl. rewrite Hd.
  reflexivity.
Qed.

Lemma examine_inv (w : World) (pool : list Location) (i : nat)
    (s : Location) (sd : SingleData) (dup : bool) :
  examine w pool i = Next (s, sd, dup) ->
  pool !! i = Some s /\
  GetSingleLocation w (EntryID s) = Ok sd /\
  IsDuplicate w (FullText sd) = Ok dup.
Proof.
  unfold examine. intros E.
  apply bind_Next_inv in E as (s' & Hs & E). apply index_Next_inv in Hs.
  apply bind_Next_inv in E as (sd' & Hf & E). apply try_Next_inv in Hf.
  apply bind_Next_inv in E as (dup' & Hd & E). apply try_Next_inv in Hd.
  injection E as -> -> ->. auto.
Qed.

Lemma examine_Return (w : World) (pool : list Location) (i : nat) (r : response) :
  examine w pool i = Return r -> exists msg, r = SendString msg.
Proof.
  unfold examine, index. destruct (pool !! i) as [s|]; simpl; [|discriminate].
  destruct (GetSingleLocation w (EntryID s)) as [sd|msg]; simpl.
  - destruct (IsDuplicate w (FullText sd)) as [dup|msg]; simpl; [discriminate|].
    intros [= <-]. eauto.
  - intros [= <-]. eauto.
Qed.

(** With [k] indices still missing from [processed], [k + 1] iterations
    finish an all-duplicates pool: [k] examinations and the final
    length test. *)
Lemma select_loop_all_duplicates (w : World) (pool : list Location) :
  all_duplicates w pool -> pool <> [] ->
  forall (k : nat) (processed : list nat) (g : rng) (fuel : nat),
    (length processed + k = length pool)%nat -> (k < fuel)%nat ->
    exists extra,
      select_loop fuel w pool processed g
      = Some (mkSelection (Return (JSON 0 None)) (processed ++ extra)
                          (mkRng (draws g) (pos g + k + 1))) /\
      length extra = k /\
      Forall (fun i => (i < length pool)%nat) extra.
Proof.
  intros Hdup Hne.
  assert (Hlen : length pool <> O) by (destruct pool; [congruence|discriminate]).
  induction k as [|k IH]; intros processed g fuel Hk Hfuel;
    (destruct fuel as [|fuel]; [lia|]); simpl;
    destruct (Intn_spec g (length pool) Hlen) as (i & -> & Hi).
  - replace (length processed =? length pool)%nat with true
      by (symmetry; apply Nat.eqb_eq; lia).
    exists []. rewrite app_nil_r.
    replace (pos g + 0 + 1)%nat with (S (pos g)) by lia. auto.
  - replace (length processed =? length pool)%nat with false
      by (symmetry; apply Nat.eqb_neq; lia).
    destruct (skip_visited i processed).
    destruct (examine_duplicate w pool i Hdup Hi) as (s & sd & ->). simpl.
    destruct (IH (processed ++ [i]) (mkRng (draws g) (S (pos g))) fuel)
      as (extra & -> & Hlen' & Hall).
    { rewrite length_app. simpl. lia. }
    { lia. }
    exists (i :: extra). rewrite <- app_assoc. simpl.
    replace (S (pos g + k + 1)) with (pos g + S k + 1)%nat by lia.
    split; [reflexivity|]. split; [lia|]. constructor; assumption.
Qed.

(** The loop cannot run for more than [len(locations) + 1] iterations,
    whatever the collaborators answer and whatever the random source
    draws. *)
Lemma select_loop_terminates (w : World) (pool : list Location) :
  forall (fuel : nat) (processed : list nat) (g : rng),
    (length processed <= length pool)%nat ->
    (length pool - length processed < fuel)%nat ->
    exists sel, select_loop fuel w pool processed g = Some sel /\
                (length (sel_processed sel) <= length pool)%nat.
Proof.
  induction fuel as [|fuel IH]; intros processed g Hle Hfuel; [lia|]. simpl.
  destruct (Intn g (length pool)) as [[i g']| |]; [|eauto..].
  destruct (Nat.eqb_spec (length processed) (length pool)) as [E|NE]; [eauto|].
  destruct (skip_visited i processed).
  assert (Hlen : (length (processed ++ [i]) <= length pool)%nat)
    by (rewrite length_app; simpl; lia).
  destruct (examine w pool i) as [[[s sd] dup]| |]; [|eauto..].
  destruct dup; simpl; [|eauto].
  apply IH; [exact Hlen|]. rewrite length_app. simpl. lia.
Qed.

(** How the loop can end: with a candidate that was fetched and found
    not to be a duplicate, with the empty result, or with an error
    text. *)
Lemma select_loop_end (w : World) (pool : list Location) :
  forall (fuel : nat) (processed : list nat) (g : rng) (sel : selection),
    select_loop fuel w pool processed g = Some sel ->
    match sel_end sel with
    | Next (cand, text) =>
        exists i sd,
          pool !! i = Some cand /\
          GetSingleLocation w (EntryID cand) = Ok sd /\
          IsDuplicate w (FullText sd) = Ok false /\
          text = FullText sd /\
          last (sel_processed sel) = Some i
    | Return r => r = JSON 0 None \/ exists msg, r = SendString msg
    | Panic => True
    end.
Proof.
  induction fuel as [|fuel IH]; intros processed g sel; [discriminate|]. simpl.
  destruct (Intn g (length pool)) as [[i g']| |] eqn:EI.
  - destruct (length processed =? length pool)%nat.
    { intros [= <-]. simpl. auto. }
    destruct (skip_visited i processed).
    destruct (examine w pool i) as [[[s sd] dup]|r|] eqn:EX.
    + destruct dup; simpl.
      * apply IH.
      * intros [= <-]. simpl.
        apply examine_inv in EX as (Hs & Hf & Hd).
        exists i, sd. rewrite last_snoc. auto.
    + intros [= <-]. simpl. right. eapply examine_Return; eassumption.
    + intros [= <-]. exact I.
  - destruct (length pool); discriminate.
  - intros [= <-]. exact I.
Qed.

End SelectionFacts.

(** ** The filters do not send responses *)

Lemma remove_pass_no_Return (id : Z) (todo i : nat) (s : slice) (r : response) :
  remove_pass id i todo s <> Return r.
Proof.
  revert i s. induction todo as [|todo IH]; intros i s; simpl; [discriminate|].
  unfold index. destruct (arr s !! i) as [loc|]; simpl; [|discriminate].
  destruct (id =? EntryID loc); [|apply IH].
  unfold remove_at. destruct (i + 1 <=? len s)%nat; simpl; [apply IH|discriminate].
Qed.

Lemma remove_resolved_no_Return (ids : list Z) (s : slice) (r : response) :
  remove_resolved ids s <> Return r.
Proof.
  revert s. induction ids as [|id ids IH]; intros s; simpl; [discriminate|].
  destruct (remove_pass id 0 (len s) s) as [s'|r'|] eqn:E; simpl.
  - apply IH.
  - exfalso. exact (remove_pass_no_Return _ _ _ _ _ E).
  - discriminate.
Qed.

Lemma in_box_no_Return (box : list float) (loc : Location) (r : response) :
  in_box box loc <> Return r.
Proof.
  unfold in_box, and_then, index.
  repeat (match goal with
          | |- context [?l !! ?i] => destruct (l !! i); simpl
          | |- context [if ?b then _ else _] => destruct b; simpl
          end; try discriminate).
Qed.

Lemma geo_loop_no_Return (box : list float) (locations acc : list Location)
    (r : response) :
  geo_loop box locations acc <> Return r.
Proof.
  revert acc. induction locations as [|loc rest IH]; intros acc; simpl;
    [discriminate|].
  destruct (in_box box loc) as [keep|r'|] eqn:E; simpl.
  - apply IH.
  - exfalso. exact (in_box_no_Return _ _ _ E).
  - discriminate.
Qed.

Section PipelineFacts.
Context {World User : Type} `{!Collaborators World User}.

Lemma filtered_pool_Return (w : World) (cityID startingAt : Z) (r : response) :
  filtered_pool w cityID startingAt = Return r -> exists msg, r = SendString msg.
Proof.
  unfold filtered_pool.
  destruct (GetAllLocations w) as [locations|msg]; simpl;
    [|intros [= <-]; eauto].
  destruct (GetLocations w) as [locs|msg]; simpl; [|intros [= <-]; eauto].
  destruct (remove_resolved (map db_EntryID locs) (of_list locations))
    as [s|r'|] eqn:E; simpl; [| |discriminate].
  - unfold geo_filter. destruct (cityID >? 0); simpl; [|discriminate].
    destruct (geo_loop (cities_at cityID) (to_list s) []) eqn:G; simpl;
      try discriminate.
    exfalso. exact (geo_loop_no_Return _ _ _ _ G).
  - exfalso. exact (remove_resolved_no_Return _ _ _ E).
Qed.

(** Termination on an all-duplicates pool.  On a non-empty filtered pool
    of [N] candidates that are all duplicates, and for every random source,
    the selection loop stops as
    soon as it is given room for [N + 1] iterations: it performs exactly
    [N] examinations (the final [processed] has length [N], one entry per
    fetch and duplicate check, each at an index of the pool), uses [N + 1]
    random draws, and the handler answers [{count: 0, location: null}]. *)
Theorem all_duplicates_gives_empty_result (w : World) (g : rng)
    (cityID startingAt : Z) (pool : list Location) (fuel : nat) :
  filtered_pool w cityID startingAt = Next pool ->
  pool <> [] ->
  all_duplicates w pool ->
  (length pool < fuel)%nat ->
  exists visited,
    select_loop fuel w pool [] g
    = Some (mkSelection (Return (JSON 0 None)) visited
                        (mkRng (draws g) (pos g + length pool + 1))) /\
    length visited = length pool /\
    Forall (fun i => (i < length pool)%nat) visited /\
    get_location fuel w g cityID startingAt = Some (Responded (JSON 0 None)).
Proof.
  intros Hpool Hne Hdup Hfuel.
  destruct (select_loop_all_duplicates w pool Hdup Hne (length pool) [] g fuel)
    as (extra & E & Hlen & Hrange); [reflexivity|exact Hfuel|].
  exists extra. simpl in E. split; [exact E|]. split; [exact Hlen|].
  split; [exact Hrange|].
  unfold get_location. rewrite Hpool, E.
  destruct pool; [congruence|]. reflexivity.
Qed.

(** C9.  A response with a non-null location is produced only by the
    acceptance of a candidate of the filtered pool: its [count] is the
    length of the filtered pool, and its location is that candidate with
    [OriginalMessage] set to the full text that was fetched for it (and
    found not to be a duplicate) and [OriginalLocation] set to the maps
    URL that embeds the two formatted coordinates twice, followed by the
    zoom level 21.  Conversely, when the loop accepts a candidate that
    has its two coordinates, this is the response. *)
Theorem success_response_shape (fuel : nat) (w : World) (g : rng)
    (cityID startingAt : Z) :
  (forall n loc,
     get_location fuel w g cityID startingAt
       = Some (Responded (JSON n (Some loc))) ->
     exists pool i cand sd a b,
       filtered_pool w cityID startingAt = Next pool /\
       n = Z.of_nat (length pool) /\
       pool !! i = Some cand /\
       GetSingleLocation w (EntryID cand) = Ok sd /\
       IsDuplicate w (FullText sd) = Ok false /\
       Loc cand !! 0%nat = Some a /\ Loc cand !! 1%nat = Some b /\
       loc = mkLocation (EntryID cand) (Loc cand) (Epoch cand) (FullText sd)
               ("https://www.google.com/maps/?q=" ++ Sprintf_f a ++ ","
                ++ Sprintf_f b ++ "&ll=" ++ Sprintf_f a ++ ","
                ++ Sprintf_f b ++ "&z=21")%string) /\
  (forall pool sel cand text a b rest,
     filtered_pool w cityID startingAt = Next pool ->
     select_loop fuel w pool [] g = Some sel ->
     sel_end sel = Next (cand, text) ->
     Loc cand = a :: b :: rest ->
     get_location fuel w g cityID startingAt
     = Some (Responded
               (JSON (Z.of_nat (length pool))
                  (Some (mkLocation (EntryID cand) (Loc cand) (Epoch cand) text
                           ("https://www.google.com/maps/?q=" ++ Sprintf_f a
                            ++ "," ++ Sprintf_f b ++ "&ll=" ++ Sprintf_f a
                            ++ "," ++ Sprintf_f b ++ "&z=21")%string))))).
Proof.
  split.
  - intros n loc. unfold get_location.
    destruct (filtered_pool w cityID startingAt) as [pool|r|] eqn:EP.
    + destruct (length pool =? 0)%nat; [discriminate|].
      destruct (select_loop fuel w pool [] g) as [sel|] eqn:ES; [|discriminate].
      pose proof (select_loop_end w pool fuel [] g sel ES) as Hend.
      destruct (sel_end sel) as [[cand text]|r|]; simpl.
      * destruct Hend as (i & sd & Hi & Hf & Hd & -> & _).
        unfold enrich, index.
        destruct (Loc cand !! 0%nat) as [a|] eqn:Ea; simpl; [|discriminate].
        destruct (Loc cand !! 1%nat) as [b|] eqn:Eb; simpl; [|discriminate].
        intros [= <- <-].
        exists pool, i, cand, sd, a, b. repeat split; assumption.
      * destruct Hend as [->|[msg ->]]; discriminate.
      * discriminate.
    + intros [= ->]. apply filtered_pool_Return in EP as [msg Hm]. discriminate.
    + discriminate.
  - intros pool sel cand text a b rest EP ES Hend HLoc.
    pose proof (select_loop_end w pool fuel [] g sel ES) as Hsel.
    rewrite Hend in Hsel. destruct Hsel as (i & sd & Hi & _).
    unfold get_location. rewrite EP, ES, Hend.
    destruct pool as [|c pool']; [discriminate|]. simpl.
    unfold enrich, index. rewrite HLoc. reflexivity.
Qed.

End PipelineFacts.

(** ** The geographic filter *)

(** Swapping the arguments of the IEEE comparison mirrors its result. *)
Lemma SFcompare_swap (f1 f2 : spec_float) :
  SFcompare f2 f1 = option_map CompOpp (SFcompare f1 f2).
Proof.
  destruct f1 as [s1|s1| |s1 m1 e1], f2 as [s2|s2| |s2 m2 e2]; simpl;
    try reflexivity;
    try (destruct s1; reflexivity); try (destruct s2; reflexivity);
    try (destruct s1, s2; reflexivity).
  f_equal. rewrite (Z.compare_antisym e1 e2).
  pose proof (Pos.compare_cont_antisym m1 m2 Eq) as Hm. simpl in Hm.
  destruct s1, s2; simpl; try reflexivity;
    destruct (e1 ?= e2); simpl; try reflexivity;
    rewrite <- Hm; destruct (Pos.compare_cont Eq m1 m2); reflexivity.
Qed.

(** [x < y] excludes [y <= x], also in the presence of NaN. *)
Lemma ltb_leb_false (x y : float) :
  PrimFloat.ltb x y = true -> PrimFloat.leb y x = false.
Proof.
  rewrite ltb_spec, leb_spec. unfold SFltb, SFleb.
  rewrite (SFcompare_swap (Prim2SF x) (Prim2SF y)).
  destruct (SFcompare (Prim2SF x) (Prim2SF y)) as [[ | | ]|]; simpl; congruence.
Qed.

Lemma in_box_coords (b0 b1 b2 b3 : float) (c : Location) (x y : float)
    (rest : list float) :
  Loc c = x :: y :: rest ->
  in_box [b0; b1; b2; b3] c = Next (le x b0 && le y b1 && le b2 x && le b3 y).
Proof.
  intros HLoc. unfold in_box, and_then, index, ge, le. rewrite HLoc. simpl.
  destruct (PrimFloat.leb x b0); simpl; [|reflexivity].
  destruct (PrimFloat.leb y b1); simpl; [|reflexivity].
  destruct (PrimFloat.leb b2 x); reflexivity.
Qed.

Lemma geo_loop_filter (b0 b1 b2 b3 : float) (pool acc : list Location) :
  Forall (fun c => exists x y rest, Loc c = x :: y :: rest) pool ->
  geo_loop [b0; b1; b2; b3] pool acc
  = Next (acc ++ List.filter (kept_by [b0; b1; b2; b3]) pool)%list.
Proof.
  intros Hwf. revert acc.
  induction Hwf as [|c pool (x & y & rest & HLoc) _ IH]; intros acc; simpl.
  - now rewrite app_nil_r.
  - unfold kept_by. rewrite (in_box_coords _ _ _ _ _ _ _ _ HLoc). simpl.
    rewrite IH.
    destruct (le x b0 && le y b1 && le b2 x && le b3 y); [|reflexivity].
    now rewrite <- app_assoc.
Qed.

(** Every registered box has a positive key and four bounds, none of them
    NaN, with the lower bound of each axis below the upper one. *)
Lemma cities_registered (cityID : Z) (box : list float) :
  cities !! cityID = Some box ->
  0 < cityID /\
  exists b0 b1 b2 b3,
    box = [b0; b1; b2; b3] /\
    le b2 b0 = true /\ le b3 b1 = true /\
    le b0 b0 = true /\ le b1 b1 = true /\ le b2 b2 = true /\ le b3 b3 = true.
Proof.
  intros H. apply elem_of_list_to_map_2 in H.
  repeat (apply elem_of_cons in H as [H|H];
          [injection H as -> ->; split; [reflexivity|];
           do 4 eexists; split; [reflexivity|]; vm_compute; tauto|]).
  apply elem_of_nil in H. contradiction.
Qed.

(** C4.  For every registered box [[b0; b1; b2; b3]] the filter keeps, in
    order, exactly the candidates for which the test of the handler
    succeeds, and that test is the conjunction of the four non-strict
    comparisons [b2 <= x <= b0] and [b3 <= y <= b1] on the two coordinates:
    a candidate with a coordinate exactly on a bound of its axis is kept
    when the other coordinate is within its bounds, and a candidate that is
    strictly beyond any one of the four bounds is dropped. *)
Theorem geo_filter_inclusive_bounds (cityID : Z) (box : list float) :
  cities !! cityID = Some box ->
  exists b0 b1 b2 b3,
    box = [b0; b1; b2; b3] /\
    (forall pool,
       Forall (fun c => exists x y rest, Loc c = x :: y :: rest) pool ->
       geo_filter cityID pool = Next (List.filter (kept_by box) pool)) /\
    (forall c x y rest,
       Loc c = x :: y :: rest ->
       in_box box c = Next (le b2 x && le x b0 && (le b3 y && le y b1)) /\
       ((x = b0 \/ x = b2) -> le b3 y = true -> le y b1 = true ->
        kept_by box c = true) /\
       ((y = b1 \/ y = b3) -> le b2 x = true -> le x b0 = true ->
        kept_by box c = true) /\
       (PrimFloat.ltb b0 x = true \/ PrimFloat.ltb x b2 = true \/
        PrimFloat.ltb b1 y = true \/ PrimFloat.ltb y b3 = true ->
        kept_by box c = false)).
Proof.
  intros Hbox.
  destruct (cities_registered _ _ Hbox)
    as (Hpos & b0 & b1 & b2 & b3 & -> & H20 & H31 & H00 & H11 & H22 & H33).
  exists b0, b1, b2, b3. split; [reflexivity|]. split.
  - intros pool Hwf. unfold geo_filter, cities_at. rewrite Hbox. simpl.
    destruct (Z.gtb_spec cityID 0) as [_|Hle]; [|lia].
    now rewrite geo_loop_filter.
  - intros c x y rest HLoc. unfold kept_by.
    rewrite (in_box_coords _ _ _ _ _ _ _ _ HLoc).
    split; [f_equal; destruct (le b2 x), (le x b0), (le b3 y), (le y b1); reflexivity|].
    split; [|split].
    + intros [->| ->] -> ->; [rewrite H00, H20|rewrite H20, H22]; reflexivity.
    + intros [->| ->] -> ->; [rewrite H11, H31|rewrite H31, H33]; reflexivity.
    + unfold le.
      intros [Hout|[Hout|[Hout|Hout]]]; apply ltb_leb_false in Hout;
        rewrite Hout; simpl;
        repeat match goal with
               | |- context [PrimFloat.leb ?a ?b] => destruct (PrimFloat.leb a b); simpl
               end; reflexivity.
Qed.

(** An unregistered positive [city_id] yields the nil box, and the first
    candidate that is tested against it indexes out of range. *)
Lemma geo_filter_unregistered (cityID : Z) (loc : Location) (rest : list Location) :
  0 < cityID -> cities !! cityID = None ->
  geo_filter cityID (loc :: rest) = Panic.
Proof.
  intros Hpos Hnone. unfold geo_filter, cities_at. rewrite Hnone.
  destruct (Z.gtb_spec cityID 0) as [_|Hle]; [reflexivity|lia].
Qed.

(** ** Runs on concrete requests *)

Module Runs.
Import Double.

(** The scenario of the geographic filter: with the box
    [{36.9, 36.8, 36.0, 35.9}] only entry 1 is retained. *)
Example geo_scenario :
  geo_loop [36.9; 36.8; 36.0; 35.9]%float pool [] = Next [candidate 1 36 36 100].
Proof. vm_compute. reflexivity. Qed.

(** The scenario of the time filter on the same pool. *)
Example time_scenario : time_filter 150 pool = [candidate 2 0 0 200].
Proof. reflexivity. Qed.

(** C1.  The [continue] of the visited-index scan only advances that
    scan, it does not send the sampling loop to its next draw: when the
    source draws 0 twice on the two-element pool, index 0 is fetched and
    duplicate-checked twice and index 1 is never examined before the loop
    gives up. *)
Theorem visited_index_is_resampled :
  exists g',
    select_loop 3 seen pool [] (constant_rng 0)
    = Some (mkSelection (Return (JSON 0 None)) [0; 0]%nat g') /\
    ~ NoDup [0; 0]%nat /\ ~ In 1%nat [0; 0]%nat.
Proof.
  eexists. split; [reflexivity|]. split.
  - intros Hnd. apply NoDup_cons in Hnd as [Hin _]. apply Hin. constructor.
  - intros [H|[H|[]]]; discriminate.
Qed.

(** C3.  When the upstream list carries a resolved entry on two adjacent
    positions, the removal shifts the second copy into the slot the loop
    has just left and never looks at it again: the pool that leaves the
    filters still contains entry 1, which is resolved. *)
Theorem resolved_entry_survives :
  IsResolved repeated 1 = Ok true /\
  filtered_pool repeated 0 0 = Next [candidate 1 36 36 101; candidate 2 0 0 200].
Proof. split; reflexivity. Qed.

(** The same defect with the two copies as the whole list: the stale
    last slot of the array matches again and [locations[i+1:]] is out of
    bounds. *)
Example removal_panics :
  remove_resolved [1] (of_list [candidate 1 36 36 100; candidate 1 36 36 101])
  = Panic.
Proof. reflexivity. Qed.

(** C5.  [city_id = 11] is positive and not registered; with a non-empty
    candidate list the handler panics on [box[0]], whatever the
    iteration bound and the random source. *)
Theorem unregistered_city_panics (fuel : nat) (g : rng) :
  cities !! 11 = None /\
  get_location fuel fresh g 11 0 = Some Panicked.
Proof. split; vm_compute; reflexivity. Qed.

(** C2.  On a pool of two candidates that are both duplicates the loop
    does stop with [{count: 0, location: null}], but not after examining
    the two candidates: when the source draws 0 each time, both
    examinations fetch and check the candidate at index 0, and the
    candidate at index 1, which is in the pool, is never examined.  The
    cause is the misplaced [continue] of C1: [processed] reaches the
    length of the pool through repeated indices. *)
Theorem all_duplicates_pool_not_fully_examined :
  all_duplicates seen pool /\
  length pool = 2%nat /\
  get_location 3 seen (constant_rng 0) 0 0 = Some (Responded (JSON 0 None)) /\
  exists g',
    select_loop 3 seen pool [] (constant_rng 0)
    = Some (mkSelection (Return (JSON 0 None)) [0; 0]%nat g') /\
    (forall i, In i [0; 0]%nat -> pool !! i = Some (candidate 1 36 36 100)) /\
    pool !! 1%nat = Some (candidate 2 0 0 200) /\
    ~ In 1%nat [0; 0]%nat.
Proof.
  split.
  { intros loc [<-|[<-|[]]]; eexists; split; reflexivity. }
  split; [reflexivity|]. split; [reflexivity|].
  eexists. split; [reflexivity|]. split; [|split].
  - intros i [<-|[<-|[]]]; reflexivity.
  - reflexivity.
  - intros [H|[H|[]]]; discriminate.
Qed.

End Runs.

(** ** The theorems at concrete requests *)

Module Witnesses.
Import Double Runs.

Lemma empty_pool_empty_result_witness :
  get_location 0 nothing counting_rng 3 7 = Some (Responded (JSON 0 None)).
Proof.
  apply (empty_pool_empty_result 0 nothing counting_rng 3 7). reflexivity.
Defined.

Lemma all_duplicates_gives_empty_result_witness :
  exists visited,
    select_loop 3 seen pool [] counting_rng
    = Some (mkSelection (Return (JSON 0 None)) visited
                        (mkRng (draws counting_rng) (pos counting_rng + 2 + 1))) /\
    length visited = 2%nat /\
    Forall (fun i => (i < 2)%nat) visited /\
    get_location 3 seen counting_rng 0 0 = Some (Responded (JSON 0 None)).
Proof.
  apply (all_duplicates_gives_empty_result seen counting_rng 0 0 pool 3).
  - reflexivity.
  - discriminate.
  - intros loc [<-|[<-|[]]]; eexists; split; reflexivity.
  - simpl. lia.
Defined.

Lemma geo_filter_inclusive_bounds_witness :
  cities !! 1 = Some [36.852702785393014; 36.87286376953126;
                      36.535570922786015; 35.88409423828126]%float /\
  geo_filter 1 [candidate 1 36.852702785393014 35.88409423828126 100;
                candidate 2 36.9 36 200]
  = Next [candidate 1 36.852702785393014 35.88409423828126 100].
Proof.
  assert (Hbox : cities !! 1
                 = Some [36.852702785393014; 36.87286376953126;
                         36.535570922786015; 35.88409423828126]%float)
    by (vm_compute; reflexivity).
  split; [exact Hbox|].
  destruct (geo_filter_inclusive_bounds 1 _ Hbox)
    as (b0 & b1 & b2 & b3 & _ & Hfilter & _).
  rewrite Hfilter.
  - vm_compute. reflexivity.
  - repeat constructor; do 3 eexists; reflexivity.
Defined.

Lemma resolve_checks_before_writing_witness :
  resolve fresh (Ok (body 9 "Hata Yok")) "key" 1676000000
    = (Responded (SendString "this location is already checked"), fresh) /\
  resolve fresh (Ok (body 1 "Hata Yok")) "key" 1676000000
    = (Responded (SendString "Successfully added!"),
       snd (resolve_location fresh
              (mkLocationDB 1676000000 1 2 [36; 36]%float true
                 "https://www.google.com/maps/?q=%f,%f&ll=%f,%f&z=21"
                 "new" "Hata Yok" (Some "key"%string) "open" "apt" "tweet"))).
Proof.
  split.
  - apply (proj1 (resolve_checks_before_writing fresh (body 9 "Hata Yok")
                    "key" 1676000000)).
    reflexivity.
  - apply (proj2 (proj2 (resolve_checks_before_writing fresh
                           (body 1 "Hata Yok") "key" 1676000000))
             (mkLocationDB 1676000000 1 2 [36; 36]%float true
                "https://www.google.com/maps/?q=%f,%f&ll=%f,%f&z=21"
                "new" "Hata Yok" (Some "key"%string) "open" "apt" "tweet"));
      reflexivity.
Defined.

Lemma corrected_iff_reason_hata_yok_witness :
  exists b,
    Ok (body 1 "Hatali") = Ok b /\
    "Hatali"%string = rb_Reason b /\
    (false = true <-> rb_Reason b = "Hata Yok"%string).
Proof.
  apply (corrected_iff_reason_hata_yok fresh (Ok (body 1 "Hatali")) "key"
           1676000000
           (mkLocationDB 1676000000 1 2 [36; 36]%float false
              "https://www.google.com/maps/?q=%f,%f&ll=%f,%f&z=21"
              "new" "Hatali" (Some "key"%string) "open" "apt" "tweet")).
  reflexivity.
Defined.

Lemma success_response_shape_witness :
  (exists pool i cand sd a b,
     filtered_pool fresh 0 0 = Next pool /\
     2 = Z.of_nat (length pool) /\
     pool !! i = Some cand /\
     GetSingleLocation fresh (EntryID cand) = Ok sd /\
     IsDuplicate fresh (FullText sd) = Ok false /\
     Loc cand !! 0%nat = Some a /\ Loc cand !! 1%nat = Some b /\
     mkLocation 2 [0; 0]%float 200 "fresh"
       "https://www.google.com/maps/?q=%f,%f&ll=%f,%f&z=21"
     = mkLocation (EntryID cand) (Loc cand) (Epoch cand) (FullText sd)
         ("https://www.google.com/maps/?q=" ++ Sprintf_f a ++ ","
          ++ Sprintf_f b ++ "&ll=" ++ Sprintf_f a ++ ","
          ++ Sprintf_f b ++ "&z=21")%string) /\
  get_location 5 fresh (constant_rng 1) 0 0
  = Some (Responded
            (JSON 2
               (Some (mkLocation 2 [0; 0]%float 200 "fresh"
                        "https://www.google.com/maps/?q=%f,%f&ll=%f,%f&z=21")))).
Proof.
  split.
  { exact (proj1 (success_response_shape 5 fresh (constant_rng 1) 0 0)
             2
             (mkLocation 2 [0; 0]%float 200 "fresh"
                "https://www.google.com/maps/?q=%f,%f&ll=%f,%f&z=21")
             eq_refl). }
  exact (proj2 (success_response_shape 5 fresh (constant_rng 1) 0 0)
           pool
           (mkSelection (Next (candidate 2 0 0 200, "fresh"%string)) [1%nat]
                        (mkRng (fun _ => 1%nat) 1))
           (candidate 2 0 0 200) "fresh"%string 0%float 0%float []
           eq_refl eq_refl eq_refl eq_refl).
Defined.

End Witnesses.

(** * Further properties *)

(** ** The removal of the resolved entries on arbitrary candidate lists *)

(** A removal that does not panic takes the element at index [i] out of
    the live part of the slice. *)
Lemma remove_at_to_list (s s1 : slice) (i : nat) :
  (len s <= length (arr s))%nat ->
  remove_at s i = Next s1 ->
  (i < len s)%nat /\
  to_list s1 = (take i (to_list s) ++ drop (S i) (to_list s))%list /\
  (len s1 <= length (arr s1))%nat.
Proof.
  intros Hb. unfold remove_at.
  destruct (Nat.leb_spec (i + 1) (len s)) as [Hi|Hi]; [|discriminate].
  intros [= <-]. split; [lia|]. unfold to_list. simpl.
  assert (H1 : length (take i (arr s)) = i) by (rewrite length_take; lia).
  assert (H2 : length (take (len s - (i + 1)) (drop (i + 1) (arr s)))
               = (len s - (i + 1))%nat)
    by (rewrite length_take, length_drop; lia).
  split.
  - rewrite app_assoc, take_app_length'
      by (rewrite length_app, H1, H2; lia).
    rewrite take_take, Nat.min_l by lia. f_equal.
    rewrite take_drop_commute. f_equal; [lia|f_equal; lia].
  - rewrite !length_app, H1, H2, length_drop. lia.
Qed.

(** One pass only takes out candidates that carry the id it looks for. *)
Lemma remove_pass_keeps (id : Z) (p : Location -> bool) :
  (forall c, p c = true -> EntryID c <> id) ->
  forall (todo i : nat) (s s' : slice),
    (len s <= length (arr s))%nat ->
    remove_pass id i todo s = Next s' ->
    to_list s' `sublist_of` to_list s /\
    List.filter p (to_list s') = List.filter p (to_list s) /\
    (len s' <= length (arr s'))%nat.
Proof.
  intros Hp. induction todo as [|todo IH]; intros i s s' Hb; simpl.
  - intros [= <-]. auto.
  - intros E. apply bind_Next_inv in E as (loc & Hloc & E).
    apply index_Next_inv in Hloc.
    destruct (Z.eqb_spec id (EntryID loc)) as [Hid|_]; [|eauto].
    apply bind_Next_inv in E as (s1 & H1 & E).
    destruct (remove_at_to_list s s1 i Hb H1) as (Hi & Hl & Hb1).
    destruct (IH _ _ _ Hb1 E) as (Hsub & Hf & Hb').
    assert (Hmid : to_list s
                   = (take i (to_list s) ++ loc :: drop (S i) (to_list s))%list).
    { symmetry. apply take_drop_middle. unfold to_list.
      now rewrite lookup_take_lt. }
    remember (take i (to_list s)) as pre eqn:Hpre.
    remember (drop (S i) (to_list s)) as post eqn:Hpost.
    rewrite Hmid. clear Hmid Hpre Hpost.
    split; [|split; [|exact Hb']].
    + etransitivity; [exact Hsub|]. rewrite Hl.
      apply sublist_app; [reflexivity|]. now apply sublist_cons.
    + rewrite Hf, Hl, !List.filter_app. simpl.
      destruct (p loc) eqn:Hpl; [|reflexivity].
      exfalso. apply (Hp loc Hpl). congruence.
Qed.

Lemma remove_resolved_keeps (p : Location -> bool) (ids : list Z) :
  (forall c id, In id ids -> p c = true -> EntryID c <> id) ->
  forall s s' : slice,
    (len s <= length (arr s))%nat ->
    remove_resolved ids s = Next s' ->
    to_list s' `sublist_of` to_list s /\
    List.filter p (to_list s') = List.filter p (to_list s).
Proof.
  induction ids as [|id ids IH]; intros Hp s s' Hb; simpl.
  - intros [= <-]. auto.
  - intros E. apply bind_Next_inv in E as (s1 & H1 & E).
    destruct (remove_pass_keeps id p) with (2 := Hb) (3 := H1)
      as (Hsub1 & Hf1 & Hb1).
    { intros c Hc. apply (Hp c id); [now left|exact Hc]. }
    destruct (IH (fun c id' Hin => Hp c id' (or_intror Hin)) s1 s' Hb1 E)
      as (Hsub & Hf).
    split; [etransitivity; eassumption|congruence].
Qed.

Lemma unresolved_true (ids : list Z) (c : Location) (id : Z) :
  In id ids -> unresolved ids c = true -> EntryID c <> id.
Proof.
  unfold unresolved. intros Hin Hu Heq. apply negb_true_iff in Hu.
  assert (existsb (Z.eqb (EntryID c)) ids = true); [|congruence].
  apply existsb_exists. exists id. split; [exact Hin|]. now apply Z.eqb_eq.
Qed.

Lemma remove_resolved_sublist (ids : list Z) (l : list Location) (s : slice) :
  remove_resolved ids (of_list l) = Next s -> to_list s `sublist_of` l.
Proof.
  intros E.
  destruct (remove_resolved_keeps (fun _ => false) ids) with (3 := E)
    as (Hsub & _); [discriminate|reflexivity|].
  replace (to_list (of_list l)) with l in Hsub by (symmetry; apply firstn_all).
  exact Hsub.
Qed.

(** X1.  On every candidate list, repeated entry ids included: when the
    removal loop finishes without a panic, what is left is a subsequence of
    the candidate list, and it still holds, in order and with their
    multiplicity, all the candidates whose entry id is not resolved. *)
Theorem removal_spares_unresolved (ids : list Z) (l : list Location) (s : slice) :
  remove_resolved ids (of_list l) = Next s ->
  to_list s `sublist_of` l /\
  List.filter (unresolved ids) (to_list s) = List.filter (unresolved ids) l /\
  (forall c, In c l -> ~ In (EntryID c) ids -> In c (to_list s)).
Proof.
  intros E.
  assert (Hl : to_list (of_list l) = l) by apply firstn_all.
  destruct (remove_resolved_keeps (unresolved ids) ids) with (3 := E)
    as (Hsub & Hf).
  { intros c id. apply unresolved_true. }
  { reflexivity. }
  rewrite Hl in Hsub, Hf. split; [exact Hsub|]. split; [exact Hf|].
  intros c Hc Hnot.
  assert (Hin : In c (List.filter (unresolved ids) l)).
  { apply filter_In. split; [exact Hc|]. unfold unresolved.
    apply negb_true_iff. destruct (existsb _ ids) eqn:Hex; [|reflexivity].
    apply existsb_exists in Hex as (id & Hid & Heq).
    apply Z.eqb_eq in Heq. exfalso. apply Hnot. now rewrite Heq. }
  rewrite <- Hf in Hin. apply filter_In in Hin. tauto.
Qed.

(** ** The pool that reaches the selection loop *)

Lemma filter_sublist {A : Type} (f : A -> bool) (l : list A) :
  List.filter f l `sublist_of` l.
Proof.
  induction l as [|a l IH]; simpl; [reflexivity|].
  destruct (f a); [now apply sublist_skip|now apply sublist_cons].
Qed.

Lemma geo_loop_kept (box : list float) (locations : list Location) :
  forall acc r,
    geo_loop box locations acc = Next r ->
    exists kept,
      r = (acc ++ kept)%list /\
      kept `sublist_of` locations /\
      Forall (fun c => in_box box c = Next true) kept.
Proof.
  induction locations as [|loc rest IH]; intros acc r; simpl.
  - intros [= <-]. exists []. rewrite app_nil_r. auto.
  - intros E. apply bind_Next_inv in E as (keep & Hk & E).
    destruct (IH _ _ E) as (kept & -> & Hsub & Hall).
    destruct keep.
    + exists (loc :: kept). rewrite <- app_assoc. simpl.
      split; [reflexivity|]. split; [now apply sublist_skip|].
      constructor; assumption.
    + exists kept. split; [reflexivity|]. split; [now apply sublist_cons|].
      exact Hall.
Qed.

Lemma time_filter_sublist (T : Z) (l : list Location) :
  time_filter T l `sublist_of` l /\
  (0 < T -> Forall (fun c => T <= Epoch c) (time_filter T l)).
Proof.
  unfold time_filter. destruct (Z.gtb_spec T 0) as [Hpos|Hle].
  - rewrite time_loop_filter. simpl. split; [apply filter_sublist|].
    intros _. apply List.Forall_forall. intros c Hc.
    apply filter_In in Hc as [_ Hc]. now apply Z.geb_le.
  - split; [reflexivity|lia].
Qed.

Section PoolFacts.
Context {World User : Type} `{!Collaborators World User}.

Lemma filtered_pool_inv (w : World) (cityID startingAt : Z) (pool : list Location) :
  filtered_pool w cityID startingAt = Next pool ->
  exists l locs s inside,
    GetAllLocations w = Ok l /\
    GetLocations w = Ok locs /\
    remove_resolved (map db_EntryID locs) (of_list l) = Next s /\
    geo_filter cityID (to_list s) = Next inside /\
    pool = time_filter startingAt inside.
Proof.
  unfold filtered_pool. intros E.
  apply bind_Next_inv in E as (l & Hl & E). apply try_Next_inv in Hl.
  apply bind_Next_inv in E as (locs & Hlocs & E). apply try_Next_inv in Hlocs.
  apply bind_Next_inv in E as (s & Hs & E).
  apply bind_Next_inv in E as (inside & Hg & E).
  injection E as <-. exists l, locs, s, inside. auto.
Qed.

Lemma filtered_pool_sound (w : World) (cityID startingAt : Z)
    (l pool : list Location) :
  GetAllLocations w = Ok l ->
  filtered_pool w cityID startingAt = Next pool ->
  pool `sublist_of` l /\
  (0 < startingAt -> Forall (fun c => startingAt <= Epoch c) pool) /\
  (0 < cityID -> Forall (fun c => in_box (cities_at cityID) c = Next true) pool).
Proof.
  intros Hl E.
  destruct (filtered_pool_inv _ _ _ _ E)
    as (l' & locs & s & inside & Hl' & _ & Hs & Hg & ->).
  assert (l' = l) as -> by congruence.
  pose proof (remove_resolved_sublist (map db_EntryID locs) l s Hs) as Hsub1.
  destruct (time_filter_sublist startingAt inside) as (Hsub3 & Htime).
  assert (Hgeo : inside `sublist_of` to_list s /\
                 (0 < cityID ->
                  Forall (fun c => in_box (cities_at cityID) c = Next true) inside)).
  { unfold geo_filter in Hg. destruct (Z.gtb_spec cityID 0) as [Hpos|Hle].
    - apply geo_loop_kept in Hg as (kept & -> & Hsub & Hall). simpl. auto.
    - injection Hg as <-. split; [reflexivity|lia]. }
  destruct Hgeo as (Hsub2 & Hbox).
  split; [etransitivity; [exact Hsub3|]; etransitivity; eassumption|].
  split; [exact Htime|].
  intros Hpos. specialize (Hbox Hpos).
  apply List.Forall_forall. intros c Hc.
  eapply List.Forall_forall in Hbox; [exact Hbox|].
  apply list_elem_of_In. eapply elem_of_sublist; [|exact Hsub3].
  now apply list_elem_of_In.
Qed.

(** X2.  Whatever the upstream list holds (repeated ids, candidates without
    coordinates), a pool that reaches the selection loop is a subsequence
    of the upstream candidate list, so the count of an answer never exceeds
    the number of upstream candidates; with [starting_at > 0] all its
    members have an epoch of at least [starting_at], and with [city_id > 0]
    all its members passed the box test. *)
Theorem pool_is_filtered_upstream (w : World) (cityID startingAt : Z)
    (l pool : list Location) :
  GetAllLocations w = Ok l ->
  filtered_pool w cityID startingAt = Next pool ->
  pool `sublist_of` l /\
  (length pool <= length l)%nat /\
  (forall c, In c pool ->
     In c l /\
     (0 < startingAt -> startingAt <= Epoch c) /\
     (0 < cityID -> in_box (cities_at cityID) c = Next true)).
Proof.
  intros Hl E.
  destruct (filtered_pool_sound _ _ _ _ _ Hl E) as (Hsub & Htime & Hbox).
  split; [exact Hsub|]. split; [now apply sublist_length|].
  intros c Hc. split; [|split].
  - apply list_elem_of_In. eapply elem_of_sublist; [|exact Hsub].
    now apply list_elem_of_In.
  - intros Hpos. eapply List.Forall_forall in Htime; eauto.
  - intros Hpos. eapply List.Forall_forall in Hbox; eauto.
Qed.

End PoolFacts.

Lemma time_filter_In (T : Z) (l : list Location) (c : Location) :
  In c (time_filter T l) <-> In c l /\ (0 < T -> T <= Epoch c).
Proof.
  unfold time_filter. destruct (Z.gtb_spec T 0) as [Hpos|Hle].
  - rewrite time_loop_filter. simpl. rewrite filter_In, Z.geb_le. tauto.
  - split; [intros Hc; split; [exact Hc|lia]|tauto].
Qed.

Section PoolOnGoodInput.
Context {World User : Type} `{!Collaborators World User}.

(** X3.  When the upstream entry ids are pairwise distinct and the city,
    if one is given, is registered and every candidate has its two
    coordinates, the three steps do not panic and compose to three nested
    filters: a candidate is in the pool exactly when it is upstream, its
    entry id is not among the resolved ones, it lies in the box (for
    [city_id > 0]) and its epoch is at least [starting_at] (for
    [starting_at > 0]). *)
Theorem filtered_pool_on_distinct_ids (w : World) (cityID startingAt : Z)
    (l : list Location) (locs : list (LocationDB User)) :
  GetAllLocations w = Ok l ->
  GetLocations w = Ok locs ->
  NoDup (map EntryID l) ->
  cityID <= 0 \/ (is_Some (cities !! cityID) /\ Forall has_coordinates l) ->
  let unresolved_ := List.filter (unresolved (map db_EntryID locs)) l in
  let inside := if cityID >? 0
                then List.filter (kept_by (cities_at cityID)) unresolved_
                else unresolved_ in
  filtered_pool w cityID startingAt = Next (time_filter startingAt inside) /\
  forall c,
    In c (time_filter startingAt inside) <->
    In c l /\ ~ In (EntryID c) (map db_EntryID locs) /\
    (0 < cityID -> kept_by (cities_at cityID) c = true) /\
    (0 < startingAt -> startingAt <= Epoch c).
Proof.
  intros Hl Hlocs Hnd Hcity u inside.
  assert (Hu : forall c, In c u <-> In c l /\ ~ In (EntryID c) (map db_EntryID locs)).
  { intros c. unfold u. rewrite filter_In. unfold unresolved.
    rewrite negb_true_iff, <- not_true_iff_false, existsb_exists.
    split; intros [Hc Hn]; (split; [exact Hc|]).
    - intros Hin. apply Hn. exists (EntryID c). split; [exact Hin|apply Z.eqb_refl].
    - intros (id & Hin & Heq). apply Z.eqb_eq in Heq. apply Hn. now rewrite Heq. }
  assert (Hgeo : geo_filter cityID u = Next inside).
  { unfold geo_filter, inside. destruct (Z.gtb_spec cityID 0) as [Hpos|Hle];
      [|reflexivity].
    destruct Hcity as [Hle|([box Hbox] & Hwf)]; [lia|].
    destruct (cities_registered _ _ Hbox) as (_ & b0 & b1 & b2 & b3 & -> & _).
    unfold cities_at. rewrite Hbox. simpl.
    apply geo_loop_filter. apply List.Forall_forall. intros c Hc.
    apply filter_In in Hc as [Hc _].
    eapply List.Forall_forall in Hwf; [exact Hwf|exact Hc]. }
  split.
  - assert (Hto : to_list (of_list l) = l) by apply firstn_all.
    unfold filtered_pool. rewrite Hl, Hlocs. simpl.
    destruct (remove_resolved_filter (map db_EntryID locs) (of_list l))
      as (s & -> & Hs); [reflexivity|now rewrite Hto|].
    simpl. rewrite Hs, Hto. fold u. now rewrite Hgeo.
  - intros c. rewrite time_filter_In. unfold inside.
    destruct (Z.gtb_spec cityID 0) as [Hpos|Hle].
    + rewrite filter_In, Hu. tauto.
    + rewrite Hu. split; [|tauto]. intros ((Hc & Hn) & Ht).
      repeat split; try assumption. lia.
Qed.

End PoolOnGoodInput.

(** ** The selection loop, draw by draw *)

Lemma advance_0 (g : rng) : advance g 0 = g.
Proof. destruct g as [d p]. unfold advance. simpl. f_equal. lia. Qed.

Lemma Intn_draw (g : rng) (n : nat) :
  n <> O -> Intn g n = Next (draw g n 0, advance g 1).
Proof.
  intros Hn. destruct n as [|n']; [congruence|].
  unfold Intn, draw, advance. rewrite Nat.add_0_r, Nat.add_1_r. reflexivity.
Qed.

Lemma draw_advance (g : rng) (n k j : nat) :
  draw (advance g k) n j = draw g n (k + j).
Proof. unfold draw, advance. simpl. now rewrite Nat.add_assoc. Qed.

Lemma advance_advance (g : rng) (k j : nat) :
  advance (advance g k) j = advance g (k + j).
Proof. unfold advance. simpl. now rewrite Nat.add_assoc. Qed.

Section LoopByDraws.
Context {World User : Type} `{!Collaborators World User}.

(** As long as room is left in [processed], a run of duplicate draws is
    worked off one iteration per draw. *)
Lemma select_loop_duplicates_prefix (w : World) (pool : list Location) :
  forall (k : nat) (processed : list nat) (g : rng) (fuel : nat),
    (length processed + k <= length pool)%nat ->
    duplicates_drawn w pool g k ->
    select_loop (k + fuel) w pool processed g
    = select_loop fuel w pool
        (processed ++ map (draw g (length pool)) (seq 0 k)) (advance g k).
Proof.
  induction k as [|k IH]; intros processed g fuel Hroom Hdup.
  - simpl. now rewrite app_nil_r, advance_0.
  - assert (Hn : length pool <> O) by lia.
    change (S k + fuel)%nat with (S (k + fuel)).
    cbn [select_loop]. rewrite (Intn_draw g _ Hn).
    replace (length processed =? length pool)%nat with false
      by (symmetry; apply Nat.eqb_neq; lia).
    destruct (skip_visited (draw g (length pool) 0) processed).
    destruct (Hdup O) as (s & sd & ->); [lia|]. simpl negb. cbv iota.
    rewrite IH.
    + rewrite advance_advance, <- app_assoc. simpl. f_equal. f_equal. f_equal.
      rewrite <- seq_shift, map_map. apply map_ext. intros j.
      now rewrite draw_advance.
    + rewrite length_app. simpl. lia.
    + intros j Hj. rewrite draw_advance. apply Hdup. lia.
Qed.

Lemma select_loop_fuel_mono (w : World) (pool : list Location) :
  forall (fuel fuel' : nat) (processed : list nat) (g : rng) (sel : selection),
    (fuel <= fuel')%nat ->
    select_loop fuel w pool processed g = Some sel ->
    select_loop fuel' w pool processed g = Some sel.
Proof.
  induction fuel as [|fuel IH]; intros fuel' processed g sel Hle;
    [discriminate|].
  destruct fuel' as [|fuel']; [lia|]. simpl.
  destruct (Intn g (length pool)) as [[i g']| |]; try exact id.
  destruct (length processed =? length pool)%nat; [exact id|].
  destruct (skip_visited i processed).
  destruct (examine w pool i) as [[[s sd] dup]| |]; try exact id.
  destruct dup; simpl; [|exact id]. apply IH. lia.
Qed.

(** X4.  The answer is decided by the draws: if the first [k] draws
    ([k] below the size of the pool) hit duplicates and draw [k] hits a
    candidate whose full text is not a duplicate, that candidate is the one
    returned; the loop has examined exactly the [k + 1] drawn indices, in
    the order of the draws, and consumed [k + 1] draws. *)
Theorem first_fresh_draw_is_selected (fuel : nat) (w : World) (g : rng)
    (cityID startingAt : Z) (pool : list Location) (k : nat)
    (s : Location) (sd : SingleData) (a b : float) (rest : list float) :
  filtered_pool w cityID startingAt = Next pool ->
  (k < length pool)%nat ->
  duplicates_drawn w pool g k ->
  examine w pool (draw g (length pool) k) = Next (s, sd, false) ->
  Loc s = a :: b :: rest ->
  (k < fuel)%nat ->
  select_loop fuel w pool [] g
  = Some (mkSelection (Next (s, FullText sd))
            (map (draw g (length pool)) (seq 0 (S k))) (advance g (S k))) /\
  get_location fuel w g cityID startingAt
  = Some (Responded
            (JSON (Z.of_nat (length pool))
               (Some (mkLocation (EntryID s) (Loc s) (Epoch s) (FullText sd)
                                 (maps_url a b))))).
Proof.
  intros Hpool Hk Hdup Hfresh HLoc Hfuel.
  assert (Hn : length pool <> O) by lia.
  assert (Hsel : select_loop fuel w pool [] g
                 = Some (mkSelection (Next (s, FullText sd))
                           (map (draw g (length pool)) (seq 0 (S k)))
                           (advance g (S k)))).
  { replace fuel with (k + S (fuel - S k))%nat by lia.
    rewrite select_loop_duplicates_prefix by (simpl; lia || assumption).
    cbn [select_loop]. rewrite (Intn_draw _ _ Hn), draw_advance, Nat.add_0_r.
    rewrite advance_advance, Nat.add_1_r.
    replace (length ([] ++ map (draw g (length pool)) (seq 0 k)) =? length pool)%nat
      with false
      by (symmetry; apply Nat.eqb_neq; simpl; rewrite length_map, length_seq; lia).
    destruct (skip_visited _ _). rewrite Hfresh. simpl negb. cbv iota beta.
    rewrite (seq_S k 0), map_app. reflexivity. }
  split; [exact Hsel|].
  unfold get_location. rewrite Hpool, Hsel.
  destruct pool; [simpl in Hk; lia|]. simpl.
  unfold enrich, index. rewrite HLoc. reflexivity.
Qed.

(** X5.  The empty answer only means that the candidates that were drawn
    are duplicates: when the first [N] draws on a pool of [N] candidates
    hit duplicates, whichever indices they are, the handler answers
    [{count: 0, location: null}], whatever the candidates that were not
    drawn. *)
Theorem drawn_duplicates_give_empty_result (fuel : nat) (w : World) (g : rng)
    (cityID startingAt : Z) (pool : list Location) :
  filtered_pool w cityID startingAt = Next pool ->
  pool <> [] ->
  duplicates_drawn w pool g (length pool) ->
  (length pool < fuel)%nat ->
  select_loop fuel w pool [] g
  = Some (mkSelection (Return (JSON 0 None))
            (map (draw g (length pool)) (seq 0 (length pool)))
            (advance g (S (length pool)))) /\
  get_location fuel w g cityID startingAt = Some (Responded (JSON 0 None)).
Proof.
  intros Hpool Hne Hdup Hfuel.
  assert (Hn : length pool <> O) by (destruct pool; [congruence|discriminate]).
  assert (Hsel : select_loop fuel w pool [] g
                 = Some (mkSelection (Return (JSON 0 None))
                           (map (draw g (length pool)) (seq 0 (length pool)))
                           (advance g (S (length pool))))).
  { replace fuel with (length pool + S (fuel - S (length pool)))%nat by lia.
    rewrite select_loop_duplicates_prefix by (simpl; lia || assumption).
    cbn [select_loop]. rewrite (Intn_draw _ _ Hn).
    rewrite advance_advance, Nat.add_1_r.
    replace (length ([] ++ map (draw g (length pool)) (seq 0 (length pool)))
             =? length pool)%nat
      with true
      by (symmetry; apply Nat.eqb_eq; simpl; rewrite length_map, length_seq; lia).
    reflexivity. }
  split; [exact Hsel|].
  unfold get_location. rewrite Hpool, Hsel.
  destruct pool; [congruence|]. reflexivity.
Qed.

End LoopByDraws.

(** ** Termination and the possible answers of [GET /get-location] *)

Section Answers.
Context {World User : Type} `{!Collaborators World User}.

Lemma filtered_pool_length (w : World) (cityID startingAt : Z)
    (l pool : list Location) :
  GetAllLocations w = Ok l ->
  filtered_pool w cityID startingAt = Next pool ->
  (length pool <= length l)%nat.
Proof.
  intros Hl E.
  destruct (filtered_pool_inv _ _ _ _ E)
    as (l' & locs & s & inside & Hl' & _ & Hs & Hg & ->).
  assert (l' = l) as -> by congruence.
  apply remove_resolved_sublist, sublist_length in Hs.
  destruct (time_filter_sublist startingAt inside) as (Ht & _).
  apply sublist_length in Ht.
  assert (length inside <= length (to_list s))%nat; [|lia].
  unfold geo_filter in Hg. destruct (cityID >? 0).
  - apply geo_loop_kept in Hg as (kept & -> & Hsub & _). simpl.
    now apply sublist_length.
  - injection Hg as <-. lia.
Qed.

(** X6.  The handler always answers: for every world and every random
    source, an iteration bound above the length of the upstream candidate
    list is enough for [get_location] to produce its outcome, and any
    larger bound produces the same outcome. *)
Theorem get_location_terminates (fuel : nat) (w : World) (g : rng)
    (cityID startingAt : Z) :
  (forall l, GetAllLocations w = Ok l -> (length l < fuel)%nat) ->
  exists out,
    get_location fuel w g cityID startingAt = Some out /\
    forall fuel', (fuel <= fuel')%nat ->
                  get_location fuel' w g cityID startingAt = Some out.
Proof.
  intros Hfuel. unfold get_location.
  destruct (filtered_pool w cityID startingAt) as [pool|r|] eqn:EP;
    [|eauto..].
  destruct (length pool =? 0)%nat; [eauto|].
  destruct (filtered_pool_inv _ _ _ _ EP) as (l & _ & _ & _ & Hl & _).
  pose proof (filtered_pool_length _ _ _ _ _ Hl EP) as Hlen.
  specialize (Hfuel l Hl).
  destruct (select_loop_terminates w pool fuel [] g) as (sel & Hsel & _);
    [simpl; lia..|].
  rewrite Hsel. eexists. split; [reflexivity|].
  intros fuel' Hle.
  now rewrite (select_loop_fuel_mono w pool fuel fuel' [] g sel Hle Hsel).
Qed.

Lemma filtered_pool_error (w : World) (cityID startingAt : Z) (r : response) :
  filtered_pool w cityID startingAt = Return r ->
  exists msg, r = SendString msg /\
              (GetAllLocations w = Err msg \/ GetLocations w = Err msg).
Proof.
  unfold filtered_pool.
  destruct (GetAllLocations w) as [locations|msg]; simpl;
    [|intros [= <-]; eauto].
  destruct (GetLocations w) as [locs|msg]; simpl; [|intros [= <-]; eauto].
  destruct (remove_resolved (map db_EntryID locs) (of_list locations))
    as [s|r'|] eqn:E; simpl; [| |discriminate].
  - unfold geo_filter. destruct (cityID >? 0); simpl; [|discriminate].
    destruct (geo_loop (cities_at cityID) (to_list s) []) eqn:G; simpl;
      try discriminate.
    exfalso. exact (geo_loop_no_Return _ _ _ _ G).
  - exfalso. exact (remove_resolved_no_Return _ _ _ E).
Qed.

Lemma examine_error (w : World) (pool : list Location) (i : nat) (r : response) :
  examine w pool i = Return r ->
  exists msg, r = SendString msg /\
    ((exists c, In c pool /\ GetSingleLocation w (EntryID c) = Err msg) \/
     (exists text, IsDuplicate w text = Err msg)).
Proof.
  unfold examine, index. destruct (pool !! i) as [s|] eqn:Hs; simpl;
    [|discriminate].
  destruct (GetSingleLocation w (EntryID s)) as [sd|msg] eqn:Hf; simpl.
  - destruct (IsDuplicate w (FullText sd)) as [dup|msg] eqn:Hd; simpl;
      [discriminate|].
    intros [= <-]. eauto 6.
  - intros [= <-]. exists msg. split; [reflexivity|]. left. exists s.
    split; [|exact Hf]. apply list_elem_of_In. eapply list_elem_of_lookup_2, Hs.
Qed.

Lemma select_loop_error (w : World) (pool : list Location) :
  forall (fuel : nat) (processed : list nat) (g : rng) (sel : selection) (r : response),
    select_loop fuel w pool processed g = Some sel ->
    sel_end sel = Return r ->
    r = JSON 0 None \/
    exists msg, r = SendString msg /\
      ((exists c, In c pool /\ GetSingleLocation w (EntryID c) = Err msg) \/
       (exists text, IsDuplicate w text = Err msg)).
Proof.
  induction fuel as [|fuel IH]; intros processed g sel r; [discriminate|]. simpl.
  destruct (Intn g (length pool)) as [[i g']| |] eqn:EI.
  - destruct (length processed =? length pool)%nat.
    { intros [= <-]. simpl. intros [= <-]. now left. }
    destruct (skip_visited i processed).
    destruct (examine w pool i) as [[[s sd] dup]|r'|] eqn:EX.
    + destruct dup; simpl; [apply IH|]. intros [= <-]. discriminate.
    + intros [= <-]. simpl. intros [= <-]. right.
      eapply examine_error; eassumption.
    + intros [= <-]. discriminate.
  - destruct (length pool); discriminate.
  - intros [= <-]. discriminate.
Qed.

(** X7.  What a client of [GET /get-location] can receive: a JSON answer
    with a null location has count 0, a JSON answer with a location has a
    positive count, and a plain text is always the error text of one of
    the collaborators ([GetAllLocations], [GetLocations],
    [GetSingleLocation] for a candidate of the pool, or [IsDuplicate]);
    the handler has no text of its own. *)
Theorem get_location_answers (fuel : nat) (w : World) (g : rng)
    (cityID startingAt : Z) (r : response) :
  get_location fuel w g cityID startingAt = Some (Responded r) ->
  match r with
  | JSON n None => n = 0
  | JSON n (Some loc) => 0 < n
  | SendString msg =>
      GetAllLocations w = Err msg \/ GetLocations w = Err msg \/
      (exists pool c, filtered_pool w cityID startingAt = Next pool /\
                      In c pool /\ GetSingleLocation w (EntryID c) = Err msg) \/
      (exists text, IsDuplicate w text = Err msg)
  end.
Proof.
  unfold get_location.
  destruct (filtered_pool w cityID startingAt) as [pool|r'|] eqn:EP.
  - destruct pool as [|c0 pool'] eqn:Hpool; [intros [= <-]; reflexivity|].
    rewrite <- Hpool in *. replace (length pool =? 0)%nat with false
      by (rewrite Hpool; reflexivity).
    destruct (select_loop fuel w pool [] g) as [sel|] eqn:ES; [|discriminate].
    destruct (sel_end sel) as [[cand text]|r'|] eqn:Hend; simpl.
    + unfold enrich, index.
      destruct (Loc cand !! 0%nat); simpl; [|discriminate].
      destruct (Loc cand !! 1%nat); simpl; [|discriminate].
      intros [= <-]. rewrite Hpool. simpl length. lia.
    + intros [= <-].
      destruct (select_loop_error w pool fuel [] g sel r' ES Hend)
        as [->|(msg & -> & [(c & Hc & Hf)|Hd])]; [reflexivity| |tauto].
      right. right. left. exists pool, c. auto.
    + discriminate.
  - intros [= <-]. apply filtered_pool_error in EP as (msg & -> & H). tauto.
  - discriminate.
Qed.

(** X15.  Every location the handler returns is an eligible upstream
    candidate: it is one of the upstream candidates with its full text
    and maps URL filled in, that full text was fetched for its entry id and
    reported not to be a duplicate, its epoch respects [starting_at], it
    passed the box test of [city_id], and, when the upstream entry ids are
    pairwise distinct, its entry id is not among the resolved ones. *)
Theorem returned_location_is_eligible (fuel : nat) (w : World) (g : rng)
    (cityID startingAt : Z) (l : list Location) (locs : list (LocationDB User))
    (n : Z) (loc : Location) :
  GetAllLocations w = Ok l ->
  GetLocations w = Ok locs ->
  get_location fuel w g cityID startingAt = Some (Responded (JSON n (Some loc))) ->
  exists cand sd,
    In cand l /\
    EntryID loc = EntryID cand /\ Loc loc = Loc cand /\ Epoch loc = Epoch cand /\
    GetSingleLocation w (EntryID cand) = Ok sd /\
    IsDuplicate w (FullText sd) = Ok false /\
    OriginalMessage loc = FullText sd /\
    (0 < startingAt -> startingAt <= Epoch loc) /\
    (0 < cityID -> in_box (cities_at cityID) cand = Next true) /\
    (NoDup (map EntryID l) -> ~ In (EntryID loc) (map db_EntryID locs)).
Proof.
  intros Hl Hlocs. unfold get_location.
  destruct (filtered_pool w cityID startingAt) as [pool|r|] eqn:EP.
  - destruct (length pool =? 0)%nat; [discriminate|].
    destruct (select_loop fuel w pool [] g) as [sel|] eqn:ES; [|discriminate].
    pose proof (select_loop_end w pool fuel [] g sel ES) as Hend.
    destruct (sel_end sel) as [[cand text]|r|]; simpl.
    + destruct Hend as (i & sd & Hi & Hf & Hd & -> & _).
      unfold enrich, index.
      destruct (Loc cand !! 0%nat) as [a|]; simpl; [|discriminate].
      destruct (Loc cand !! 1%nat) as [b|]; simpl; [|discriminate].
      intros [= <- <-]. simpl.
      assert (Hin : In cand pool)
        by (apply list_elem_of_In; eapply list_elem_of_lookup_2, Hi).
      destruct (filtered_pool_sound _ _ _ _ _ Hl EP) as (Hsub & Htime & Hbox).
      exists cand, sd. repeat split; try assumption.
      * apply list_elem_of_In. eapply elem_of_sublist; [|exact Hsub].
        now apply list_elem_of_In.
      * intros Hpos. eapply List.Forall_forall in Htime; eauto.
      * intros Hpos. eapply List.Forall_forall in Hbox; eauto.
      * intros Hnd.
        destruct (filtered_pool_inv _ _ _ _ EP)
          as (l' & locs' & s & inside & Hl' & Hlocs' & Hs & Hg & Hpool).
        assert (l' = l) as -> by congruence.
        assert (locs' = locs) as -> by congruence.
        destruct (remove_resolved_filter (map db_EntryID locs) (of_list l))
          as (s' & Hs' & Hfilter);
          [reflexivity|unfold to_list, of_list; simpl; now rewrite firstn_all|].
        assert (s' = s) as -> by congruence.
        assert (Hcand : In cand (to_list s)).
        { apply list_elem_of_In. eapply elem_of_sublist.
          - apply list_elem_of_In. rewrite Hpool in Hin. exact Hin.
          - etransitivity; [apply time_filter_sublist|].
            unfold geo_filter in Hg. destruct (cityID >? 0).
            + apply geo_loop_kept in Hg as (kept & -> & Hsub' & _). exact Hsub'.
            + injection Hg as <-. reflexivity. }
        rewrite Hfilter in Hcand. apply filter_In in Hcand as [_ Hu].
        intros Hres. revert Hu. unfold unresolved.
        rewrite negb_true_iff, <- not_true_iff_false, existsb_exists.
        intros Hu. apply Hu. exists (EntryID cand).
        split; [exact Hres|apply Z.eqb_refl].
    + destruct Hend as [->|[msg ->]]; discriminate.
    + discriminate.
  - intros [= ->]. apply filtered_pool_error in EP as (msg & Hm & _). discriminate.
  - discriminate.
Qed.

End Answers.

(** ** The record written by [POST /resolve] *)

Section ResolveFacts.
Context {World User : Type} `{!Collaborators World User}.

Lemma find_original_no_match (id : Z) (l : list Location) :
  (forall c, In c l -> EntryID c <> id) ->
  forall address location,
    find_original id l address location = Next (address, location).
Proof.
  induction l as [|c l IH]; intros Hno address location; simpl; [reflexivity|].
  destruct (Z.eqb_spec (EntryID c) id) as [E|_].
  - exfalso. apply (Hno c); [now left|exact E].
  - apply IH. intros d Hd. apply Hno. now right.
Qed.

Lemma find_original_last_match (id : Z) (l1 l2 : list Location) (c : Location)
    (a b : float) (rest : list float) :
  EntryID c = id ->
  Loc c = a :: b :: rest ->
  (forall d, In d l2 -> EntryID d <> id) ->
  Forall (fun d => EntryID d = id -> has_coordinates d) l1 ->
  forall address location,
    find_original id (l1 ++ c :: l2) address location
    = Next (maps_url a b, Loc c).
Proof.
  intros Hid HLoc Hno Hwf. induction Hwf as [|d l1 Hd _ IH];
    intros address location; simpl.
  - rewrite Hid, Z.eqb_refl. unfold index. rewrite HLoc. simpl.
    now apply find_original_no_match.
  - destruct (Z.eqb_spec (EntryID d) id) as [E|_]; [|apply IH].
    destruct (Hd E) as (x & y & more & HLd). unfold index. rewrite HLd. simpl.
    apply IH.
Qed.

(** X8.  The handler does not require the entry to exist upstream: for an
    id that is not resolved and that no upstream candidate carries, it
    still hands a record to [ResolveLocation], with an empty location and
    an empty original address. *)
Theorem resolve_unknown_entry (w : World) (body : ResolveBody)
    (authKey : string) (now : Z) (l : list Location) :
  IsResolved w (rb_ID body) = Ok false ->
  GetAllLocations w = Ok l ->
  (forall c, In c l -> EntryID c <> rb_ID body) ->
  exists record,
    resolve_record w (Ok body) authKey now = Next record /\
    db_EntryID record = rb_ID body /\
    db_Location record = [] /\
    db_OriginalAddress record = ""%string /\
    resolve w (Ok body) authKey now
    = (Responded (SendString (match fst (ResolveLocation w record) with
                              | Some msg => msg
                              | None => "Successfully added!"%string
                              end)),
       snd (ResolveLocation w record)).
Proof.
  intros Hr Hl Hno. eexists. split.
  - unfold resolve_record. simpl. rewrite Hr. simpl. rewrite Hl. simpl.
    rewrite (find_original_no_match _ _ Hno). simpl. reflexivity.
  - simpl. repeat split.
    unfold resolve, resolve_record. simpl. rewrite Hr. simpl. rewrite Hl. simpl.
    rewrite (find_original_no_match _ _ Hno). simpl.
    destruct (ResolveLocation w _) as [[msg|] w']; reflexivity.
Qed.

(** X9.  When the entry is upstream, the record carries the coordinates
    of the last upstream candidate with that id and, as original address,
    the maps URL built from its two coordinates in the format
    [GET /get-location] uses for [OriginalLocation]. *)
Theorem resolve_known_entry (w : World) (body : ResolveBody)
    (authKey : string) (now : Z) (l1 l2 : list Location) (c : Location)
    (a b : float) (rest : list float) :
  IsResolved w (rb_ID body) = Ok false ->
  GetAllLocations w = Ok (l1 ++ c :: l2)%list ->
  EntryID c = rb_ID body ->
  Loc c = a :: b :: rest ->
  (forall d, In d l2 -> EntryID d <> rb_ID body) ->
  Forall (fun d => EntryID d = rb_ID body -> has_coordinates d) l1 ->
  exists record,
    resolve_record w (Ok body) authKey now = Next record /\
    db_Location record = Loc c /\
    db_OriginalAddress record
    = ("https://www.google.com/maps/?q=" ++ Sprintf_f a ++ "," ++ Sprintf_f b
       ++ "&ll=" ++ Sprintf_f a ++ "," ++ Sprintf_f b ++ "&z=21")%string.
Proof.
  intros Hr Hl Hid HLoc Hno Hwf. eexists. split.
  - unfold resolve_record. simpl. rewrite Hr. simpl. rewrite Hl. simpl.
    rewrite (find_original_last_match _ _ _ _ _ _ _ Hid HLoc Hno Hwf).
    simpl. reflexivity.
  - simpl. split; reflexivity.
Qed.

Lemma find_original_no_Return (id : Z) (l : list Location) (r : response) :
  forall address location, find_original id l address location <> Return r.
Proof.
  induction l as [|c l IH]; intros address location; simpl; [discriminate|].
  destruct (EntryID c =? id); [|apply IH].
  unfold index. destruct (Loc c !! 0%nat); simpl; [|discriminate].
  destruct (Loc c !! 1%nat); simpl; [apply IH|discriminate].
Qed.

Lemma resolve_record_Return (w : World) (parsed : result ResolveBody)
    (authKey : string) (now : Z) (r : response) :
  resolve_record w parsed authKey now = Return r ->
  exists msg,
    r = SendString msg /\
    (parsed = Err msg \/
     exists body,
       parsed = Ok body /\
       (IsResolved w (rb_ID body) = Err msg \/
        (IsResolved w (rb_ID body) = Ok true /\
         msg = "this location is already checked"%string) \/
        (IsResolved w (rb_ID body) = Ok false /\ GetAllLocations w = Err msg))).
Proof.
  unfold resolve_record. destruct parsed as [body|msg]; simpl;
    [|intros [= <-]; eauto].
  destruct (IsResolved w (rb_ID body)) as [[|]|msg] eqn:Hr; simpl.
  - intros [= <-]. eexists. split; [reflexivity|]. right. exists body. auto.
  - destruct (GetAllLocations w) as [l|msg] eqn:Hl; simpl.
    + destruct (find_original (rb_ID body) l ""%string []) eqn:Hf; simpl;
        try discriminate.
      exfalso. exact (find_original_no_Return _ _ _ _ _ Hf).
    + intros [= <-]. exists msg. split; [reflexivity|]. right. exists body. auto.
  - intros [= <-]. exists msg. split; [reflexivity|]. right. exists body. auto.
Qed.

(** X10.  What [POST /resolve] can do.  It never answers with JSON.  The
    world it leaves behind differs from the one it found only through a
    single call of [ResolveLocation], which is made only after
    [IsResolved] answered [false] for the id of the body; then the answer
    is the error text of that call or "Successfully added!".  In every
    other case (a body that does not parse, a failing or positive
    [IsResolved], a failing [GetAllLocations], a panic) the world is
    untouched and a plain text is the error text of the failing step or
    the rejection. *)
Theorem resolve_answers (w w' : World) (parsed : result ResolveBody)
    (authKey : string) (now : Z) (out : outcome) :
  resolve w parsed authKey now = (out, w') ->
  match out with
  | Panicked => w' = w
  | Responded (JSON _ _) => False
  | Responded (SendString msg) =>
      (w' = w /\
       (parsed = Err msg \/
        exists body,
          parsed = Ok body /\
          (IsResolved w (rb_ID body) = Err msg \/
           (IsResolved w (rb_ID body) = Ok true /\
            msg = "this location is already checked"%string) \/
           (IsResolved w (rb_ID body) = Ok false /\
            GetAllLocations w = Err msg)))) \/
      (exists body record,
         parsed = Ok body /\
         IsResolved w (rb_ID body) = Ok false /\
         resolve_record w parsed authKey now = Next record /\
         db_EntryID record = rb_ID body /\
         (ResolveLocation w record = (Some msg, w') \/
          (ResolveLocation w record = (None, w') /\
           msg = "Successfully added!"%string)))
  end.
Proof.
  unfold resolve.
  destruct (resolve_record w parsed authKey now) as [record|r|] eqn:E.
  - destruct (resolve_record_inv _ _ _ _ _ E)
      as (body & l & found & Hp & Hr & _ & _ & Hrec).
    destruct (ResolveLocation w record) as [[msg|] w1] eqn:Hw;
      intros [= <- <-]; right; exists body, record;
      (repeat split; [exact Hp|exact Hr|now rewrite Hrec|]); auto.
  - intros [= <- <-].
    apply resolve_record_Return in E as (msg & -> & H). left. auto.
  - intros [= <- <-]. reflexivity.
Qed.

(** X11.  The [Auth-Key] header does not decide whether a resolution is
    recorded: if a record is written for one key, then for any other key
    the same record is written except for its sender, which is the user
    the key belongs to, or nil when [GetUser] fails. *)
Theorem resolve_ignores_authentication (w : World) (parsed : result ResolveBody)
    (authKey authKey' : string) (now : Z) (record : LocationDB User) :
  resolve_record w parsed authKey now = Next record ->
  db_Sender record = match GetUser w authKey with
                     | Ok userData => Some userData
                     | Err _ => None
                     end /\
  resolve_record w parsed authKey' now
  = Next (mkLocationDB (db_ID record) (db_EntryID record) (db_Type record)
            (db_Location record) (db_Corrected record)
            (db_OriginalAddress record) (db_CorrectedAddress record)
            (db_Reason record)
            (match GetUser w authKey' with
             | Ok userData => Some userData
             | Err _ => None
             end)
            (db_OpenAddress record) (db_Apartment record)
            (db_TweetContents record)).
Proof.
  intros E.
  destruct (resolve_record_inv _ _ _ _ _ E)
    as (body & l & found & -> & Hr & Hl & Hf & ->).
  split; [reflexivity|].
  unfold resolve_record. simpl. rewrite Hr. simpl. rewrite Hl. simpl.
  rewrite Hf. reflexivity.
Qed.

End ResolveFacts.

(** ** The guard of the [/admin] group *)

Section AdminGuardFacts.
Context {World User : Type} `{!Collaborators World User} `{!Permissions User}.

(** X12.  The guard hands a request on to the [/admin] routes exactly when
    the [Auth-Key] belongs to a user whose permission level is at least
    [PermModerator]; every other request is answered with status 401,
    "User not found." when the lookup fails and "You are not allowed to
    access here." when the level is too low. *)
Theorem admin_guard_spec (w : World) (authKey : string) :
  (admin_guard w authKey = PassOn <->
   exists user, GetUser w authKey = Ok user /\ PermModerator <= PermLevel user) /\
  (forall status body,
     admin_guard w authKey = Reject status body ->
     status = 401 /\
     ((body = "User not found."%string /\ exists msg, GetUser w authKey = Err msg) \/
      (body = "You are not allowed to access here."%string /\
       exists user, GetUser w authKey = Ok user /\ PermLevel user < PermModerator))).
Proof.
  unfold admin_guard. destruct (GetUser w authKey) as [user|msg].
  - destruct (Z.ltb_spec (PermLevel user) PermModerator) as [Hlt|Hge]; split.
    + split; [discriminate|]. intros (u & [= <-] & Hu). lia.
    + intros status body [= <- <-]. split; [reflexivity|]. right. eauto.
    + split; [eauto|reflexivity].
    + discriminate.
  - split.
    + split; [discriminate|]. intros (u & Hu & _). discriminate.
    + intros status body [= <- <-]. split; [reflexivity|]. left. eauto.
Qed.

End AdminGuardFacts.

(** ** Candidates without coordinates *)

Lemma geo_loop_panics (box : list float) (l : list Location) (c : Location) :
  In c l -> in_box box c = Panic ->
  forall acc, geo_loop box l acc = Panic.
Proof.
  induction l as [|d l IH]; intros Hin Hc acc; [contradiction|]. simpl.
  destruct Hin as [->|Hin]; [now rewrite Hc|].
  destruct (in_box box d) as [keep|r|] eqn:Hd; simpl.
  - now apply IH.
  - exfalso. exact (in_box_no_Return _ _ _ Hd).
  - reflexivity.
Qed.

(** X13.  With a registered city, a candidate that lacks a coordinate the
    box test gets to read stops the whole request with a panic: a
    candidate without coordinates always, a candidate with a single
    coordinate [x] when [x] is within the upper bound of the first axis.
    A single coordinate beyond that bound ends the test early and the
    candidate is dropped like any candidate outside the box. *)
Theorem geo_filter_missing_coordinates (cityID : Z) (box : list float)
    (l : list Location) (c : Location) :
  cities !! cityID = Some box ->
  In c l ->
  exists b0 rest,
    box = b0 :: rest /\
    (Loc c = [] -> geo_filter cityID l = Panic) /\
    (forall x, Loc c = [x] -> le x b0 = true -> geo_filter cityID l = Panic) /\
    (forall x, Loc c = [x] -> le x b0 = false -> in_box box c = Next false).
Proof.
  intros Hbox Hin.
  destruct (cities_registered _ _ Hbox) as (Hpos & b0 & b1 & b2 & b3 & -> & _).
  exists b0, [b1; b2; b3]. split; [reflexivity|].
  assert (Hgeo : in_box [b0; b1; b2; b3] c = Panic -> geo_filter cityID l = Panic).
  { intros Hc. unfold geo_filter, cities_at. rewrite Hbox. simpl.
    destruct (Z.gtb_spec cityID 0) as [_|Hle]; [|lia].
    now apply (geo_loop_panics _ _ c). }
  split; [|split].
  - intros HLoc. apply Hgeo. unfold in_box, and_then, index. now rewrite HLoc.
  - intros x HLoc Hx. apply Hgeo. unfold in_box, and_then, index, ge.
    rewrite HLoc. simpl. unfold le in Hx. now rewrite Hx.
  - intros x HLoc Hx. unfold in_box, and_then, index, ge. rewrite HLoc. simpl.
    unfold le in Hx. now rewrite Hx.
Qed.

(** ** The further properties at concrete requests *)

Module FurtherWitnesses.
Import Double.

Lemma removal_spares_unresolved_witness :
  exists s,
    remove_resolved [1] (of_list (upstream repeated)) = Next s /\
    In (candidate 2 0 0 200) (to_list s).
Proof.
  eexists. split; [reflexivity|].
  apply (removal_spares_unresolved [1] (upstream repeated) _ eq_refl).
  - right. right. now left.
  - intros [H|[]]. discriminate.
Defined.

Lemma pool_is_filtered_upstream_witness :
  [candidate 2 0 0 200] `sublist_of` pool /\
  (length [candidate 2 0 0 200] <= length pool)%nat /\
  (forall c, In c [candidate 2 0 0 200] ->
     In c pool /\
     (0 < 150 -> 150 <= Epoch c) /\
     (0 < 0 -> in_box (cities_at 0) c = Next true)).
Proof.
  exact (pool_is_filtered_upstream fresh 0 150 pool [candidate 2 0 0 200]
           eq_refl eq_refl).
Defined.

Lemma filtered_pool_on_distinct_ids_witness :
  filtered_pool fresh 1 150 = Next [].
Proof.
  refine (proj1 (filtered_pool_on_distinct_ids fresh 1 150 pool (stored fresh)
                   eq_refl eq_refl _ _)).
  - apply NoDup_cons_2; [|apply NoDup_cons_2; [|apply NoDup_nil_2]].
    + intros H. apply list_elem_of_In in H. destruct H as [H|[]]. discriminate.
    + intros H. apply list_elem_of_In in H. destruct H.
  - right. split.
    + eexists. vm_compute. reflexivity.
    + repeat constructor; do 3 eexists; reflexivity.
Defined.

Lemma first_fresh_draw_is_selected_witness :
  select_loop 2 mixed pool [] counting_rng
  = Some (mkSelection (Next (candidate 2 0 0 200, "fresh"%string))
            (map (draw counting_rng 2) (seq 0 2)) (advance counting_rng 2)) /\
  get_location 2 mixed counting_rng 0 0
  = Some (Responded
            (JSON 2 (Some (mkLocation 2 [0; 0]%float 200 "fresh"
                             (maps_url 0 0))))).
Proof.
  apply (first_fresh_draw_is_selected 2 mixed counting_rng 0 0 pool 1
           (candidate 2 0 0 200) (mkSingleData "fresh") 0%float 0%float []).
  - reflexivity.
  - simpl. lia.
  - intros j Hj. destruct j as [|j]; [|lia]. do 2 eexists. reflexivity.
  - reflexivity.
  - reflexivity.
  - lia.
Defined.

Lemma drawn_duplicates_give_empty_result_witness :
  IsDuplicate mixed (FullText (mkSingleData (full_text mixed 2))) = Ok false /\
  get_location 3 mixed (constant_rng 0) 0 0 = Some (Responded (JSON 0 None)).
Proof.
  split; [reflexivity|].
  apply (drawn_duplicates_give_empty_result 3 mixed (constant_rng 0) 0 0 pool).
  - reflexivity.
  - discriminate.
  - intros j Hj. do 2 eexists. reflexivity.
  - simpl. lia.
Defined.

Lemma get_location_terminates_witness :
  exists out,
    get_location 3 mixed counting_rng 0 0 = Some out /\
    forall fuel', (3 <= fuel')%nat ->
                  get_location fuel' mixed counting_rng 0 0 = Some out.
Proof.
  apply (get_location_terminates 3 mixed counting_rng 0 0).
  intros l [= <-]. simpl. lia.
Defined.

Lemma get_location_answers_witness :
  get_location 2 mixed counting_rng 0 0
  = Some (Responded
            (JSON 2 (Some (mkLocation 2 [0; 0]%float 200 "fresh" (maps_url 0 0))))) /\
  0 < 2.
Proof.
  split; [reflexivity|].
  exact (get_location_answers 2 mixed counting_rng 0 0
           (JSON 2 (Some (mkLocation 2 [0; 0]%float 200 "fresh" (maps_url 0 0))))
           eq_refl).
Defined.

Lemma returned_location_is_eligible_witness :
  exists cand sd,
    In cand pool /\
    2 = EntryID cand /\ [0; 0]%float = Loc cand /\ 200 = Epoch cand /\
    GetSingleLocation mixed (EntryID cand) = Ok sd /\
    IsDuplicate mixed (FullText sd) = Ok false /\
    "fresh"%string = FullText sd /\
    (0 < 150 -> 150 <= 200) /\
    (0 < 0 -> in_box (cities_at 0) cand = Next true) /\
    (NoDup (map EntryID pool) -> ~ In 2 (map db_EntryID (stored mixed))).
Proof.
  exact (returned_location_is_eligible 2 mixed counting_rng 0 150 pool
           (stored mixed) 1
           (mkLocation 2 [0; 0]%float 200 "fresh" (maps_url 0 0))
           eq_refl eq_refl eq_refl).
Defined.

Lemma resolve_unknown_entry_witness :
  exists record,
    resolve_record fresh (Ok (body 5 "Hata Yok")) "key" 1676000000 = Next record /\
    db_EntryID record = 5 /\
    db_Location record = [] /\
    db_OriginalAddress record = ""%string /\
    resolve fresh (Ok (body 5 "Hata Yok")) "key" 1676000000
    = (Responded (SendString (match fst (ResolveLocation fresh record) with
                              | Some msg => msg
                              | None => "Successfully added!"%string
                              end)),
       snd (ResolveLocation fresh record)).
Proof.
  apply (resolve_unknown_entry fresh (body 5 "Hata Yok") "key" 1676000000 pool).
  - reflexivity.
  - reflexivity.
  - intros c [<-|[<-|[]]]; discriminate.
Defined.

Lemma resolve_known_entry_witness :
  exists record,
    resolve_record fresh (Ok (body 2 "Hatali")) "key" 1676000000 = Next record /\
    db_Location record = [0; 0]%float /\
    db_OriginalAddress record
    = "https://www.google.com/maps/?q=%f,%f&ll=%f,%f&z=21"%string.
Proof.
  refine (resolve_known_entry fresh (body 2 "Hatali") "key" 1676000000
            [candidate 1 36 36 100] [] (candidate 2 0 0 200) 0%float 0%float []
            eq_refl eq_refl eq_refl eq_refl _ _).
  - intros d [].
  - repeat constructor. discriminate.
Defined.

Lemma resolve_answers_witness :
  resolve ragged (Ok (body 3 "Hata Yok")) "key" 1676000000 = (Panicked, ragged) /\
  ragged = ragged.
Proof.
  split; [reflexivity|].
  exact (resolve_answers ragged ragged (Ok (body 3 "Hata Yok")) "key"
           1676000000 Panicked eq_refl).
Defined.

Lemma resolve_ignores_authentication_witness :
  resolve_record fresh (Ok (body 1 "Hata Yok")) "nobody" 1676000000
  = Next (mkLocationDB 1676000000 1 2 [36; 36]%float true
            "https://www.google.com/maps/?q=%f,%f&ll=%f,%f&z=21"
            "new" "Hata Yok" None "open" "apt" "tweet").
Proof.
  exact (proj2 (resolve_ignores_authentication fresh (Ok (body 1 "Hata Yok"))
                  "key" "nobody" 1676000000
                  (mkLocationDB 1676000000 1 2 [36; 36]%float true
                     "https://www.google.com/maps/?q=%f,%f&ll=%f,%f&z=21"
                     "new" "Hata Yok" (Some "key"%string) "open" "apt" "tweet")
                  eq_refl)).
Defined.

Lemma admin_guard_spec_witness :
  (exists user, GetUser mixed "mod" = Ok user /\ PermModerator <= PermLevel user) /\
  401 = 401 /\
  (("You are not allowed to access here."%string = "User not found."%string /\
    exists msg, GetUser mixed "key" = Err msg) \/
   ("You are not allowed to access here."%string
    = "You are not allowed to access here."%string /\
    exists user, GetUser mixed "key" = Ok user /\ PermLevel user < PermModerator)).
Proof.
  split.
  - exact (proj1 (proj1 (admin_guard_spec mixed "mod")) eq_refl).
  - exact (proj2 (admin_guard_spec mixed "key") 401
             "You are not allowed to access here."%string eq_refl).
Defined.

Lemma geo_filter_missing_coordinates_witness :
  exists b0 rest,
    [36.852702785393014; 36.87286376953126;
     36.535570922786015; 35.88409423828126]%float = b0 :: rest /\
    (Loc (mkLocation 3 [] 300 ""%string ""%string) = [] ->
     geo_filter 1 (upstream ragged) = Panic) /\
    (forall x, Loc (mkLocation 3 [] 300 ""%string ""%string) = [x] ->
               le x b0 = true -> geo_filter 1 (upstream ragged) = Panic) /\
    (forall x, Loc (mkLocation 3 [] 300 ""%string ""%string) = [x] ->
               le x b0 = false ->
               in_box [36.852702785393014; 36.87286376953126;
                       36.535570922786015; 35.88409423828126]%float
                      (mkLocation 3 [] 300 ""%string ""%string) = Next false).
Proof.
  apply (geo_filter_missing_coordinates 1 _ (upstream ragged)
           (mkLocation 3 [] 300 ""%string ""%string)).
  - vm_compute. reflexivity.
  - right. now left.
Defined.

Lemma remove_resolved_distinct_ids_witness :
  exists s,
    remove_resolved [9; 1] (of_list pool) = Next s /\
    to_list s = List.filter (unresolved [9; 1]) pool /\
    (forall c, In c (to_list s) -> ~ In (EntryID c) [9; 1]).
Proof.
  apply (remove_resolved_distinct_ids [9; 1] pool).
  apply NoDup_cons_2; [|apply NoDup_cons_2; [|apply NoDup_nil_2]].
  - intros H. apply list_elem_of_In in H. destruct H as [H|[]]. discriminate.
  - intros H. apply list_elem_of_In in H. destruct H.
Defined.

End FurtherWitnesses.
